(** * Data.Native.Array: helper functions over JavaScript arrays

    A shallow embedding of [src/index.js].  A JavaScript array is modelled
    by the list of its elements, an [Int] by the [Z] it denotes (JavaScript
    numbers hold every integer of magnitude up to 2^53 exactly; beyond
    that, sums are rounded, see [number_add]), an index read [a[i]] by the
    total lookup
    [a !!! i], whose out-of-range value is the inhabitant of the element
    type (JavaScript's [undefined]).  The source names [at] and [end] are
    reserved words here and are written [at_] and [end_]. *)

From Stdlib Require Import ZArith String.
From stdpp Require Import base numbers option list sorting pretty.
From Equations Require Import Equations.

Local Open Scope Z_scope.

(** ** The optional value of Data.Native.Maybe *)

(** Modelled from the spec: the Optional collaborator [Data.Native.Maybe],
    a dependency that is not part of this repository: two variants, and the
    test [isJust]. *)
Inductive Maybe (B : Type) : Type :=
| Nothing : Maybe B
| Just (v : B) : Maybe B.
Arguments Nothing {B}.
Arguments Just {B} v.

Definition isJust {B : Type} (m : Maybe B) : bool :=
  match m with
  | Just _ => true
  | Nothing => false
  end.

Module NativeArray.

(** [findMap]: the loop [for (lp = 0; lp < a.length; lp += 1)].  Next to the
    value it returns, the loop threads [calls], the indices of the elements
    the mapping function has been applied to so far, oldest first. *)
Equations findMap_loop {A B : Type} `{Inhabited A}
    (a : list A) (f : A -> Maybe B) (lp : nat) (calls : list nat)
    : Maybe B * list nat by wf (length a - lp)%nat lt :=
  findMap_loop a f lp calls with decide (lp < length a)%nat := {
    | left _ with f (a !!! lp) := {
        | fResult with isJust fResult := {
            | true => (fResult, calls ++ [lp])
            | false => findMap_loop a f (S lp) (calls ++ [lp]) } }
    | right _ => (Nothing, calls) }.
Next Obligation. lia. Qed.

Definition findMap {A B : Type} `{Inhabited A}
    (a : list A) (f : A -> Maybe B) : Maybe B * list nat :=
  findMap_loop a f 0%nat [].

(** [append]: the array literal [[...a, item]]. *)
Definition append {A : Type} (a : list A) (item : A) : list A :=
  a ++ [item].

(** [prepend]: the array literal [[item, ...a]]. *)
Definition prepend {A : Type} (item : A) (a : list A) : list A :=
  item :: a.

(** The built-in [Array.prototype.slice] of the host language (ECMAScript,
    sec. Array.prototype.slice): a negative relative index counts from the
    end, both indices are clamped to [0 .. len], and the elements from [k]
    up to [final] are copied one by one.  An omitted [end] is [None] and
    stands for [len]. *)
Definition relative_index (len i : Z) : Z :=
  if i <? 0 then Z.max (len + i) 0 else Z.min i len.

Equations Array_slice_loop {A : Type} `{Inhabited A}
    (a : list A) (k final : Z) (result : list A)
    : list A by wf (Z.to_nat (final - k)) lt :=
  Array_slice_loop a k final result with decide (k < final) := {
    | left _ => Array_slice_loop a (k + 1) final (result ++ [a !!! Z.to_nat k])
    | right _ => result }.
Next Obligation. lia. Qed.

Definition Array_slice {A : Type} `{Inhabited A}
    (a : list A) (start : Z) (end_ : option Z) : list A :=
  let len := Z.of_nat (length a) in
  let k := relative_index len start in
  let final := match end_ with
               | None => len
               | Some e => relative_index len e
               end in
  Array_slice_loop a k final [].

(** [slice]: [a.slice(start, end)]. *)
Definition slice {A : Type} `{Inhabited A}
    (a : list A) (start end_ : Z) : list A :=
  Array_slice a start (Some end_).

(** [at]: the guarded index read. *)
Definition at_ {A : Type} `{Inhabited A} (a : list A) (index : Z) : Maybe A :=
  if (index <? 0) || (index >=? Z.of_nat (length a))
  then Nothing
  else Just (a !!! Z.to_nat index).

(** The numbers of the host language are IEEE 754 doubles.  On integers a
    sum or a difference is exact as long as it stays within [-2^53 .. 2^53];
    beyond, it is the nearest double, a multiple of [2^e] with a 53 bit
    quotient, ties going to the even quotient.  (The doubles end near
    2^1024; adding one to a double never gets there.) *)
Definition round_to_double (n : Z) : Z :=
  if Z.abs n <=? 2 ^ 53 then n
  else
    let e := Z.log2 (Z.abs n) - 52 in
    let q := Z.abs n / 2 ^ e in
    let r := Z.abs n mod 2 ^ e in
    let q' := if (2 * r >? 2 ^ e) || ((2 * r =? 2 ^ e) && Z.odd q)
              then q + 1 else q in
    Z.sgn n * (q' * 2 ^ e).

Definition number_add (x y : Z) : Z := round_to_double (x + y).

Definition number_sub (x y : Z) : Z := round_to_double (x - y).

(** [range]: the two counting loops, each pushing [lp] onto [result].
    [lp += 1] is [number_add lp 1]: when it gives [lp] back, the counter is
    stuck below [upper] and the loop never ends; [None] stands for that. *)
Equations range_up (lp upper : Z) (result : list Z)
    : option (list Z) by wf (Z.to_nat (upper - lp)) lt :=
  range_up lp upper result with decide (lp < upper) := {
    | left _ with decide (lp < number_add lp 1) := {
        | left _ => range_up (number_add lp 1) upper (result ++ [lp])
        | right _ => None }
    | right _ => Some result }.
Next Obligation. lia. Qed.

Equations range_down (lp upper : Z) (result : list Z)
    : option (list Z) by wf (Z.to_nat (lp - upper)) lt :=
  range_down lp upper result with decide (lp > upper) := {
    | left _ with decide (number_sub lp 1 < lp) := {
        | left _ => range_down (number_sub lp 1) upper (result ++ [lp])
        | right _ => None }
    | right _ => Some result }.
Next Obligation. lia. Qed.

Definition range (lower upper : Z) : option (list Z) :=
  if decide (lower < upper)
  then range_up lower upper []
  else range_down lower upper [].

(** [reduce]: the Nil/Cons case split; [a.slice(1)] omits its [end]. *)
Definition reduce {A B : Type} `{Inhabited A}
    (a : list A) (fNil : unit -> B) (fCons : A -> list A -> B) : B :=
  if (length a =? 0)%nat
  then fNil tt
  else fCons (a !!! 0%nat) (Array_slice a 1 None).

(** [zipWith]: the loop up to [Math.min(a1.length, a2.length)]. *)
Equations zipWith_loop {A B C : Type} `{Inhabited A} `{Inhabited B}
    (f : A -> B -> C) (a1 : list A) (a2 : list B) (upper lp : nat)
    (result : list C) : list C by wf (upper - lp)%nat lt :=
  zipWith_loop f a1 a2 upper lp result with decide (lp < upper)%nat := {
    | left _ =>
        zipWith_loop f a1 a2 upper (S lp) (result ++ [f (a1 !!! lp) (a2 !!! lp)])
    | right _ => result }.
Next Obligation. lia. Qed.

Definition zipWith {A B C : Type} `{Inhabited A} `{Inhabited B}
    (f : A -> B -> C) (a1 : list A) (a2 : list B) : list C :=
  let upper := Nat.min (length a1) (length a2) in
  zipWith_loop f a1 a2 upper 0%nat [].

(** The built-in [Array.prototype.join]: the elements' strings with the
    separator between consecutive ones.  How an element is turned into a
    string is the element type's business. *)
Fixpoint Array_join {A : Type} (toString : A -> string)
    (a : list A) (sep : string) : string :=
  match a with
  | [] => EmptyString
  | x :: rest =>
      match rest with
      | [] => toString x
      | _ :: _ => (toString x ++ sep ++ Array_join toString rest sep)%string
      end
  end.

Definition join {A : Type} (toString : A -> string)
    (a : list A) (sep : string) : string :=
  Array_join toString a sep.

(** Which values of an element type are the [undefined] of the host
    language.  [Array.prototype.sort] sets them apart before it orders. *)
Class IsUndefined (A : Type) : Type := is_undefined : A -> bool.

(** Modelled from the spec: the loop of [CountAndMakeRun] in the built-in
    [Array.prototype.sort] (see [Array_sort] below): how many of the
    elements [rest] continue the run that ends in [previousElement]. *)
Fixpoint count_run {A : Type} (comparefn : A -> A -> Z) (isDescending : bool)
    (previousElement : A) (rest : list A) : nat :=
  match rest with
  | [] => 0
  | currentElement :: rest' =>
      let order := comparefn currentElement previousElement in
      if (if isDescending then order >=? 0 else order <? 0)
      then 0
      else S (count_run comparefn isDescending currentElement rest')
  end.

(** Modelled from the spec: [CountAndMakeRun(0, length)] of the built-in
    [Array.prototype.sort]: the work array with its first run made
    ascending, and the length of that run.  The run is descending when the
    second element compares less than the first, and it goes on as long as
    each element compares less than the one before it; otherwise it is
    ascending and goes on as long as no element compares less than the one
    before it. *)
Definition CountAndMakeRun {A : Type} (comparefn : A -> A -> Z)
    (work : list A) : list A * nat :=
  match work with
  | [] => ([], 0%nat)
  | [_] => (work, 1%nat)
  | elementHigh :: elementLow :: rest =>
      let order := comparefn elementLow elementHigh in
      let isDescending := order <? 0 in
      let runLength := (2 + count_run comparefn isDescending elementLow rest)%nat in
      if isDescending
      then (reverse (take runLength work) ++ drop runLength work, runLength)
      else (work, runLength)
  end.

(** Modelled from the spec: the binary search of [BinaryInsertionSort] in
    the built-in [Array.prototype.sort]: where [pivot] belongs between the
    indices [left_] and [right_] of the ordered part. *)
Equations binary_search {A : Type} (comparefn : A -> A -> Z) (pivot : A)
    (work : list A) (left_ right_ : nat) : nat by wf (right_ - left_)%nat lt :=
  binary_search comparefn pivot work left_ right_
    with decide (left_ < right_)%nat := {
    | left _ with work !! (left_ + (right_ - left_) / 2)%nat := {
        | Some element with decide (comparefn pivot element < 0) := {
            | left _ =>
                binary_search comparefn pivot work
                  left_ (left_ + (right_ - left_) / 2)%nat
            | right _ =>
                binary_search comparefn pivot work
                  (S (left_ + (right_ - left_) / 2)%nat) right_ }
        | None => left_ }
    | right _ => left_ }.
Next Obligation.
  pose proof (Nat.div_lt (right_ - left_) 2 ltac:(lia) ltac:(lia)) as Hmid.
  change (Nat.divmod (right_ - left_) 1 0 1).1 with ((right_ - left_) / 2)%nat.
  set (half := ((right_ - left_) / 2)%nat) in *. clearbody half. lia.
Qed.
Next Obligation.
  pose proof (Nat.div_lt (right_ - left_) 2 ltac:(lia) ltac:(lia)) as Hmid.
  change (Nat.divmod (right_ - left_) 1 0 1).1 with ((right_ - left_) / 2)%nat.
  set (half := ((right_ - left_) / 2)%nat) in *. clearbody half. lia.
Qed.

(** Modelled from the spec: [BinaryInsertionSort(0, start, length)] of the
    built-in [Array.prototype.sort]: each element from index [start] on is
    put into the ordered part before it, at the place the binary search
    gives. *)
Definition BinaryInsertionSort {A : Type} (comparefn : A -> A -> Z)
    (work : list A) (start : nat) : list A :=
  foldl (fun sorted pivot =>
           let left_ := binary_search comparefn pivot sorted 0 (length sorted) in
           take left_ sorted ++ pivot :: drop left_ sorted)
        (take start work) (drop start work).

(** Modelled from the spec: [ArrayTimSort] of the built-in
    [Array.prototype.sort], on one run: nothing to do below two elements;
    otherwise the first run, then the insertions after it. *)
Definition ArrayTimSort {A : Type} (comparefn : A -> A -> Z)
    (work : list A) : list A :=
  if (length work <? 2)%nat then work
  else
    let '(work', runLength) := CountAndMakeRun comparefn work in
    BinaryInsertionSort comparefn work' runLength.

(** Modelled from the spec: the built-in [Array.prototype.sort] of the host
    language, which is no code of this repository.  The elements that are
    not [undefined] are ordered with the comparator; the [undefined] ones
    follow them, and the comparator is not called on them.  The ordering is
    the algorithm of V8, the engine of Node.js (TimSort, [array-sort.tq]),
    as it runs on an array of fewer than 64 elements, where the whole array
    is one run: [CountAndMakeRun] finds the ascending or strictly descending
    run the array starts with and reverses a descending one, and
    [BinaryInsertionSort] inserts the remaining elements one by one.  On 64
    elements and more V8 builds several such runs and merges them; that
    gives the same array when the comparator is consistent, which is the
    order ECMAScript prescribes, and is not modelled otherwise. *)
Definition Array_sort {A : Type} `{IsUndefined A}
    (comparefn : A -> A -> Z) (a : list A) : list A :=
  ArrayTimSort comparefn (List.filter (fun x => negb (is_undefined x)) a)
    ++ List.filter is_undefined a.

(** What ECMAScript calls a consistent comparator for a set of values:
    comparing equal is reflexive, symmetric and transitive, and comparing
    less and comparing greater are transitive. *)
Definition consistent {A : Type} (comparefn : A -> A -> Z) (values : list A) : Prop :=
  (forall x, x ∈ values -> comparefn x x = 0)
  /\ (forall x y, x ∈ values -> y ∈ values ->
      comparefn x y = 0 -> comparefn y x = 0)
  /\ (forall x y z, x ∈ values -> y ∈ values -> z ∈ values ->
      comparefn x y = 0 -> comparefn y z = 0 -> comparefn x z = 0)
  /\ (forall x y z, x ∈ values -> y ∈ values -> z ∈ values ->
      comparefn x y < 0 -> comparefn y z < 0 -> comparefn x z < 0)
  /\ (forall x y z, x ∈ values -> y ∈ values -> z ∈ values ->
      comparefn x y > 0 -> comparefn y z > 0 -> comparefn x z > 0).

(** The elements of an array that are not [undefined]. *)
Definition defined {A : Type} `{IsUndefined A} (a : list A) : list A :=
  List.filter (fun x => negb (is_undefined x)) a.

(** [sort]: the copy [[...a]], ordered with the uncurried comparator. *)
Definition sort {A : Type} `{IsUndefined A}
    (compare : A -> A -> Z) (a : list A) : list A :=
  Array_sort (fun x y => compare x y) a.

(** [concat], [map], [filter] and [length] delegate to the built-ins of the
    same names. *)
Definition concat {A : Type} (a1 a2 : list A) : list A :=
  a1 ++ a2.

Definition map {A B : Type} (f : A -> B) (a : list A) : list B :=
  f <$> a.

Definition filter {A : Type} (predicate : A -> bool) (a : list A) : list A :=
  List.filter predicate a.

Definition length {A : Type} (a : list A) : Z :=
  Z.of_nat (List.length a).

End NativeArray.

(** Numbers, strings and pairs are never [undefined]; in an [option] type,
    [None] is. *)
#[export] Instance Z_IsUndefined : NativeArray.IsUndefined Z := fun _ => false.
#[export] Instance string_IsUndefined : NativeArray.IsUndefined string := fun _ => false.
#[export] Instance prod_IsUndefined {A B : Type} : NativeArray.IsUndefined (A * B) :=
  fun _ => false.
#[export] Instance option_IsUndefined {A : Type} : NativeArray.IsUndefined (option A) :=
  fun x => match x with None => true | Some _ => false end.

(** ** Arrays as objects

    A JavaScript array is an object: a variable holds a reference to it,
    and [push] and [sort] write through that reference.  To state that an
    operation leaves its arguments alone, the operations are modelled a
    second time, on references into a store.  The store lists the elements
    of every array allocated so far; a reference is the position of its
    array in the store; a new array is put at the end.  Callbacks are pure:
    they compute a value and touch no array. *)

Module Heap.

Definition ref : Type := nat.

Abbreviation store V := (list (list V)).

(** Computations that read and write the store. *)
Definition M (V X : Type) : Type := store V -> X * store V.

#[export] Instance M_ret {V : Type} : MRet (M V) :=
  fun X (x : X) s => (x, s).

#[export] Instance M_bind {V : Type} : MBind (M V) :=
  fun X Y (k : X -> M V Y) (m : M V X) s => let (x, s') := m s in k x s'.

(** The array literal and the built-ins that build a new array: the result
    is a new object. *)
Definition new_array {V : Type} (elems : list V) : M V ref :=
  fun s => (List.length s, s ++ [elems]).

(** Reading an array: its elements as they are now. *)
Definition elements {V : Type} (a : ref) : M V (list V) :=
  fun s => (s !!! a, s).

(** [a.push(x)] writes to the array [a]. *)
Definition push {V : Type} (a : ref) (x : V) : M V unit :=
  fun s => (tt, alter (fun elems => elems ++ [x]) a s).

(** [a.sort(comparefn)] orders the array [a] in place and returns [a]. *)
Definition Array_sort {V : Type} `{NativeArray.IsUndefined V}
    (comparefn : V -> V -> Z) (a : ref) : M V ref :=
  fun s => (a, alter (NativeArray.Array_sort comparefn) a s).

Definition length {V : Type} (a : ref) : M V Z :=
  elems ← elements a; mret (NativeArray.length elems).

Definition findMap {V B : Type} `{Inhabited V}
    (a : ref) (f : V -> Maybe B) : M V (Maybe B * list nat) :=
  elems ← elements a; mret (NativeArray.findMap elems f).

Definition append {V : Type} (a : ref) (item : V) : M V ref :=
  elems ← elements a; new_array (NativeArray.append elems item).

Definition prepend {V : Type} (item : V) (a : ref) : M V ref :=
  elems ← elements a; new_array (NativeArray.prepend item elems).

Definition slice {V : Type} `{Inhabited V} (a : ref) (start end_ : Z) : M V ref :=
  elems ← elements a; new_array (NativeArray.slice elems start end_).

Definition at_ {V : Type} `{Inhabited V} (a : ref) (index : Z) : M V (Maybe V) :=
  elems ← elements a; mret (NativeArray.at_ elems index).

(** [range]: [result] is a new array, and the loops push onto it.  [num]
    turns an integer into an element value.  The counter is taken exact
    here: how it is rounded beyond 2^53 ([NativeArray.range]) plays no part
    in which array the loop writes to, and where the loop of the source
    does not end there is no store after the call to speak of. *)
Equations range_up {V : Type} (num : Z -> V) (result : ref) (lp upper : Z)
    (s : store V) : unit * store V by wf (Z.to_nat (upper - lp)) lt :=
  range_up num result lp upper s with decide (lp < upper) := {
    | left _ => range_up num result (lp + 1) upper (push result (num lp) s).2
    | right _ => (tt, s) }.
Next Obligation. lia. Qed.

Equations range_down {V : Type} (num : Z -> V) (result : ref) (lp upper : Z)
    (s : store V) : unit * store V by wf (Z.to_nat (lp - upper)) lt :=
  range_down num result lp upper s with decide (lp > upper) := {
    | left _ => range_down num result (lp - 1) upper (push result (num lp) s).2
    | right _ => (tt, s) }.
Next Obligation. lia. Qed.

Definition range {V : Type} (num : Z -> V) (lower upper : Z) : M V ref :=
  if decide (lower < upper)
  then result ← new_array []; _ ← range_up num result lower upper; mret result
  else result ← new_array []; _ ← range_down num result lower upper; mret result.

Definition concat {V : Type} (a1 a2 : ref) : M V ref :=
  elems1 ← elements a1; elems2 ← elements a2;
  new_array (NativeArray.concat elems1 elems2).

(** [reduce] hands [fCons] the head and a reference to the new array
    [a.slice(1)]. *)
Definition reduce {V B : Type} `{Inhabited V}
    (a : ref) (fNil : unit -> B) (fCons : V -> ref -> B) : M V B :=
  elems ← elements a;
  if (List.length elems =? 0)%nat
  then mret (fNil tt)
  else tail ← new_array (NativeArray.Array_slice elems 1 None);
       mret (fCons (elems !!! 0%nat) tail).

(** [zipWith]: [result] is a new array; each turn reads [a1[lp]] and
    [a2[lp]] from the store as it is then, and pushes onto [result]. *)
Equations zipWith_loop {V : Type} `{Inhabited V} (f : V -> V -> V)
    (a1 a2 result : ref) (upper lp : nat) (s : store V)
    : unit * store V by wf (upper - lp)%nat lt :=
  zipWith_loop f a1 a2 result upper lp s with decide (lp < upper)%nat := {
    | left _ =>
        zipWith_loop f a1 a2 result upper (S lp)
          (push result (f ((s !!! a1) !!! lp) ((s !!! a2) !!! lp)) s).2
    | right _ => (tt, s) }.
Next Obligation. lia. Qed.

Definition zipWith {V : Type} `{Inhabited V}
    (f : V -> V -> V) (a1 a2 : ref) : M V ref :=
  result ← new_array [];
  elems1 ← elements a1; elems2 ← elements a2;
  let upper := Nat.min (List.length elems1) (List.length elems2) in
  _ ← zipWith_loop f a1 a2 result upper 0%nat;
  mret result.

Definition map {V : Type} (f : V -> V) (a : ref) : M V ref :=
  elems ← elements a; new_array (NativeArray.map f elems).

Definition join {V : Type} (toString : V -> string) (a : ref) (sep : string)
    : M V string :=
  elems ← elements a; mret (NativeArray.join toString elems sep).

Definition filter {V : Type} (predicate : V -> bool) (a : ref) : M V ref :=
  elems ← elements a; new_array (NativeArray.filter predicate elems).

(** [sort]: the spread [[...a]] is a new array, and it is that copy which is
    ordered in place. *)
Definition sort {V : Type} `{NativeArray.IsUndefined V}
    (compare : V -> V -> Z) (a : ref) : M V ref :=
  elems ← elements a;
  copy ← new_array elems;
  Array_sort (fun x y => compare x y) copy.

(** An operation leaves the arrays alone when every array of the store
    holds, after the call, the elements it held before. *)
Definition preserves {V X : Type} (m : M V X) : Prop :=
  forall (s : store V) (a : ref) (elems : list V),
    s !! a = Some elems -> (m s).2 !! a = Some elems.

(** The array an operation returns is new when its reference is none of
    the store the operation started from. *)
Definition returns_new {V : Type} (m : M V ref) : Prop :=
  forall s : store V, s !! (m s).1 = None /\ is_Some ((m s).2 !! (m s).1).

End Heap.

(** ** The assumptions of the source file, replayed on the embedding *)

Example length_assumptions :
  NativeArray.length (@nil Z) = 0 /\ NativeArray.length [1; 2; 3] = 3.
Proof. split; reflexivity. Qed.

Example append_assumptions :
  NativeArray.append [1; 2; 3] 4 = [1; 2; 3; 4] /\ NativeArray.append [] 4 = [4].
Proof. split; reflexivity. Qed.

Example prepend_assumptions :
  NativeArray.prepend 0 [1; 2; 3] = [0; 1; 2; 3] /\ NativeArray.prepend 0 [] = [0].
Proof. split; reflexivity. Qed.

Example slice_assumptions :
  NativeArray.slice [1; 2; 3; 4] 1 3 = [2; 3] /\
  NativeArray.slice [1; 2; 3; 4] 3 (-1) = [] /\
  NativeArray.slice [1; 2; 3; 4] 10 12 = [] /\
  NativeArray.slice [1; 2; 3; 4] 1 100 = [2; 3; 4].
Proof. repeat split; reflexivity. Qed.

Example at_assumptions :
  NativeArray.at_ [1; 2; 3; 4] 3 = Just 4 /\
  NativeArray.at_ [1; 2; 3; 4] 9 = Nothing /\
  NativeArray.at_ [1; 2; 3; 4] (-2) = Nothing.
Proof. repeat split; reflexivity. Qed.

Example range_assumptions :
  NativeArray.range 1 10 = Some [1; 2; 3; 4; 5; 6; 7; 8; 9] /\
  NativeArray.range 10 1 = Some [10; 9; 8; 7; 6; 5; 4; 3; 2].
Proof. split; reflexivity. Qed.

Example concat_assumptions :
  NativeArray.concat (@nil Z) [] = [] /\ NativeArray.concat [1; 2] [3; 4] = [1; 2; 3; 4].
Proof. split; reflexivity. Qed.

Example reduce_assumptions :
  NativeArray.reduce (@nil Z) (fun _ => None) (fun h t => Some (h, t)) = None /\
  NativeArray.reduce [1; 2; 3] (fun _ => None) (fun h t => Some (h, t)) = Some (1, [2; 3]).
Proof. split; reflexivity. Qed.

Example zipWith_assumptions :
  NativeArray.zipWith Z.mul [] [] = [] /\
  NativeArray.zipWith Z.mul [1; 2; 3] [] = [] /\
  NativeArray.zipWith Z.mul [1; 2; 3] [4; 5; 6; 7] = [4; 10; 18] /\
  NativeArray.zipWith Z.mul [1; 2; 3; 4; 5; 6] [4; 5; 6] = [4; 10; 18].
Proof. repeat split; reflexivity. Qed.

Example map_assumptions :
  NativeArray.map (fun x => x * 2) [] = [] /\
  NativeArray.map (fun x => x * 2) [1; 2; 3] = [2; 4; 6].
Proof. split; reflexivity. Qed.

Example join_assumptions :
  NativeArray.join (pretty : Z -> string) [1; 2; 3] ", " = "1, 2, 3"%string /\
  NativeArray.join (pretty : Z -> string) [] ", " = EmptyString.
Proof. split; reflexivity. Qed.

Example filter_assumptions :
  NativeArray.filter (fun n => n >? 5) [1; 10; 2; 9; 3; 8; 4; 7; 5; 6] = [10; 9; 8; 7; 6].
Proof. reflexivity. Qed.

Example sort_assumptions :
  NativeArray.sort (fun a b => if a <? b then -1 else if a >? b then 1 else 0)
    [1; 9; 2; 8; 3; 7; 4; 6; 5] = [1; 2; 3; 4; 5; 6; 7; 8; 9].
Proof. reflexivity. Qed.

(** ** findMap *)

Section FindMap.
Context {A B : Type} `{Inhabited A}.
Implicit Types (a : list A) (f : A -> Maybe B).

Lemma isJust_Nothing (m : Maybe B) : isJust m = false <-> m = Nothing.
Proof. destruct m; simpl; split; congruence. Qed.

Lemma findMap_loop_step a f lp calls :
  (lp < length a)%nat ->
  NativeArray.findMap_loop a f lp calls =
    if isJust (f (a !!! lp)) then (f (a !!! lp), calls ++ [lp])
    else NativeArray.findMap_loop a f (S lp) (calls ++ [lp]).
Proof.
  intros Hlt. rewrite NativeArray.findMap_loop_equation_1.
  destruct (decide (lp < length a)%nat) as [Hlt' | Hge]; [| lia].
  simpl. unfold NativeArray.findMap_loop_unfold_clause_1_clause_1.
  destruct (isJust (f (a !!! lp))); reflexivity.
Qed.

Lemma findMap_loop_exit a f lp calls :
  (length a <= lp)%nat ->
  NativeArray.findMap_loop a f lp calls = (Nothing, calls).
Proof.
  intros Hge. rewrite NativeArray.findMap_loop_equation_1.
  destruct (decide (lp < length a)%nat) as [Hlt | Hge']; [lia | reflexivity].
Qed.

Lemma findMap_loop_none a f :
  forall (n lp : nat) calls,
    n = (length a - lp)%nat ->
    (forall j y, (lp <= j)%nat -> a !! j = Some y -> f y = Nothing) ->
    NativeArray.findMap_loop a f lp calls = (Nothing, calls ++ seq lp n).
Proof.
  induction n as [| n IH]; intros lp calls Hn Hall.
  - rewrite findMap_loop_exit by lia. simpl. by rewrite app_nil_r.
  - assert (Hlt : (lp < length a)%nat) by lia.
    rewrite findMap_loop_step by done.
    destruct (lookup_lt_is_Some_2 a lp Hlt) as [y Hy].
    rewrite (list_lookup_total_correct _ _ _ Hy).
    rewrite (Hall lp y) by done. simpl.
    rewrite IH; [| lia | intros j z Hj; apply Hall; lia].
    by rewrite <- app_assoc.
Qed.

Lemma findMap_loop_first a f k x v :
  a !! k = Some x -> f x = Just v ->
  forall (n lp : nat) calls,
    n = (k - lp)%nat -> (lp <= k)%nat ->
    (forall j y, (lp <= j < k)%nat -> a !! j = Some y -> f y = Nothing) ->
    NativeArray.findMap_loop a f lp calls = (Just v, calls ++ seq lp (S n)).
Proof.
  intros Hk Hv. pose proof (lookup_lt_Some _ _ _ Hk) as Hklt.
  induction n as [| n IH]; intros lp calls Hn Hle Hall.
  - assert (lp = k) as -> by lia.
    rewrite findMap_loop_step by done.
    rewrite (list_lookup_total_correct _ _ _ Hk), Hv. reflexivity.
  - assert (Hlt : (lp < length a)%nat) by lia.
    rewrite findMap_loop_step by done.
    destruct (lookup_lt_is_Some_2 a lp Hlt) as [y Hy].
    rewrite (list_lookup_total_correct _ _ _ Hy).
    rewrite (Hall lp y) by (done || lia). simpl.
    rewrite IH; [| lia | lia | intros j z Hj; apply Hall; lia].
    by rewrite <- app_assoc.
Qed.

(** C1: [findMap] returns the first [Just] that [f] yields on the elements
    taken from left to right, [Nothing] when [f] yields none (so also on
    the empty array), and [f] has then been applied to the elements at
    indices [0 .. k] only, [k] the index of that first success (to every
    element when there is none). *)
Theorem findMap_first_present a f :
  (forall k x v,
      a !! k = Some x -> f x = Just v ->
      (forall j y, (j < k)%nat -> a !! j = Some y -> f y = Nothing) ->
      NativeArray.findMap a f = (Just v, seq 0 (S k)))
  /\ ((forall x, x ∈ a -> f x = Nothing) ->
      NativeArray.findMap a f = (Nothing, seq 0 (length a)))
  /\ NativeArray.findMap [] f = (Nothing, []).
Proof.
  unfold NativeArray.findMap. split; [| split].
  - intros k x v Hk Hv Hbefore.
    rewrite (findMap_loop_first a f k x v Hk Hv k 0%nat []); try done; try lia.
    intros j y Hj. apply Hbefore. lia.
  - intros Hnone.
    rewrite (findMap_loop_none a f (length a) 0%nat []); try done; try lia.
    intros j y _ Hy. apply Hnone. by eapply list_elem_of_lookup_2.
  - by rewrite findMap_loop_exit.
Qed.
End FindMap.

(** The short circuit on a concrete array: the mapping function is applied
    at indices 0, 1 and 2, and not to the fourth element. *)
Example findMap_short_circuit :
  NativeArray.findMap [1; 2; 3; 4]
    (fun x => if 2 <? x then Just (x * 10) else Nothing)
  = (Just 30, [0; 1; 2]%nat).
Proof. reflexivity. Qed.

(** ** slice *)

Section Slice.
Context {A : Type} `{Inhabited A}.
Implicit Types (a result : list A) (start k final : Z).

Lemma relative_index_range len i :
  0 <= len -> 0 <= NativeArray.relative_index len i <= len.
Proof. unfold NativeArray.relative_index. destruct (Z.ltb_spec i 0); lia. Qed.

Lemma relative_index_inside len i :
  0 <= i <= len -> NativeArray.relative_index len i = i.
Proof. unfold NativeArray.relative_index. destruct (Z.ltb_spec i 0); lia. Qed.

Lemma Array_slice_loop_step a k final result :
  k < final ->
  NativeArray.Array_slice_loop a k final result =
    NativeArray.Array_slice_loop a (k + 1) final (result ++ [a !!! Z.to_nat k]).
Proof.
  intros Hlt. rewrite NativeArray.Array_slice_loop_equation_1.
  destruct (decide (k < final)) as [Hlt' | Hge]; [reflexivity | lia].
Qed.

Lemma Array_slice_loop_exit a k final result :
  final <= k -> NativeArray.Array_slice_loop a k final result = result.
Proof.
  intros Hge. rewrite NativeArray.Array_slice_loop_equation_1.
  destruct (decide (k < final)) as [Hlt | Hge']; [lia | reflexivity].
Qed.

(** The copying loop yields the segment of [a] from [k] up to [final]. *)
Lemma Array_slice_loop_segment a final :
  final <= Z.of_nat (length a) ->
  forall (n : nat) k result,
    n = Z.to_nat (final - k) -> 0 <= k ->
    NativeArray.Array_slice_loop a k final result =
      result ++ take n (drop (Z.to_nat k) a).
Proof.
  intros Hfinal. induction n as [| n IH]; intros k result Hn Hk.
  - rewrite Array_slice_loop_exit by lia. simpl. by rewrite app_nil_r.
  - rewrite Array_slice_loop_step by lia.
    assert (Hlt : (Z.to_nat k < length a)%nat) by lia.
    destruct (lookup_lt_is_Some_2 a _ Hlt) as [x Hx].
    rewrite (list_lookup_total_correct _ _ _ Hx).
    rewrite (IH (k + 1)) by lia.
    rewrite (drop_S _ _ _ Hx). simpl. rewrite <- app_assoc. simpl.
    by replace (Z.to_nat (k + 1)) with (S (Z.to_nat k)) by lia.
Qed.

Lemma slice_segment a start (end_ : Z) :
  let len := Z.of_nat (length a) in
  let k := NativeArray.relative_index len start in
  let final := NativeArray.relative_index len end_ in
  NativeArray.slice a start end_ =
    take (Z.to_nat (final - k)) (drop (Z.to_nat k) a).
Proof.
  intros len k final. unfold NativeArray.slice, NativeArray.Array_slice.
  fold len. fold k. fold final.
  pose proof (relative_index_range len start ltac:(lia)).
  pose proof (relative_index_range len end_ ltac:(lia)).
  by rewrite (Array_slice_loop_segment a final ltac:(lia) (Z.to_nat (final - k)) k [])
    by (done || lia).
Qed.

(** [slice] only looks at the relative indices of its two arguments. *)
Lemma slice_relative a start (end_ : Z) start' (end_' : Z) :
  let len := Z.of_nat (length a) in
  NativeArray.relative_index len start = NativeArray.relative_index len start' ->
  NativeArray.relative_index len end_ = NativeArray.relative_index len end_' ->
  NativeArray.slice a start end_ = NativeArray.slice a start' end_'.
Proof. intros len Hs He. rewrite !slice_segment. fold len. by rewrite Hs, He. Qed.

Lemma slice_infix a start (end_ : Z) :
  exists before after, a = before ++ NativeArray.slice a start end_ ++ after.
Proof.
  rewrite slice_segment. cbv zeta.
  match goal with
  | |- context [take ?n (drop ?k a)] => exists (take k a), (drop n (drop k a))
  end.
  by rewrite !take_drop.
Qed.

Lemma slice_empty_range a start (end_ : Z) :
  let len := Z.of_nat (length a) in
  NativeArray.relative_index len end_ <= NativeArray.relative_index len start ->
  NativeArray.slice a start end_ = [].
Proof.
  intros len Hle. rewrite slice_segment. fold len.
  by replace (Z.to_nat _) with 0%nat by lia.
Qed.

(** C5: [slice] is defined for all integers [start] and [end], and its
    result is always a segment of the array (no read falls outside it); a
    negative index [-len <= i < 0] stands for [len + i], so [-1] is the
    last element; and an empty or inverted effective range, and a range
    that lies entirely outside the array, give the empty array. *)
Theorem slice_never_raises a start (end_ : Z) :
  let len := Z.of_nat (length a) in
  (exists before after, a = before ++ NativeArray.slice a start end_ ++ after)
  /\ (- len <= start < 0 ->
      NativeArray.slice a start end_ = NativeArray.slice a (len + start) end_)
  /\ (- len <= end_ < 0 ->
      NativeArray.slice a start end_ = NativeArray.slice a start (len + end_))
  /\ (forall x, last a = Some x -> NativeArray.slice a (-1) len = [x])
  /\ (NativeArray.relative_index len end_ <= NativeArray.relative_index len start ->
      NativeArray.slice a start end_ = [])
  /\ (len <= start -> NativeArray.slice a start end_ = [])
  /\ (end_ <= - len -> NativeArray.slice a start end_ = []).
Proof.
  intros len. assert (0 <= len) by lia.
  split; [apply slice_infix |].
  split; [| split; [| split; [| split; [| split]]]].
  - intros Hs. apply slice_relative; [| done]. fold len.
    unfold NativeArray.relative_index.
    destruct (Z.ltb_spec start 0), (Z.ltb_spec (len + start) 0); lia.
  - intros He. apply slice_relative; [done |]. fold len.
    unfold NativeArray.relative_index.
    destruct (Z.ltb_spec end_ 0), (Z.ltb_spec (len + end_) 0); lia.
  - intros x Hx. rewrite slice_segment. fold len.
    destruct a as [| y a'] using rev_ind; [done |].
    rewrite last_snoc in Hx. injection Hx as ->.
    subst len. rewrite length_app in *. simpl in *.
    unfold NativeArray.relative_index.
    destruct (Z.ltb_spec (-1) 0); [| lia].
    destruct (Z.ltb_spec (Z.of_nat (length a' + 1)) 0); [lia |].
    replace (Z.to_nat (Z.max _ 0)) with (length a') by lia.
    replace (Z.to_nat _) with 1%nat by lia.
    by rewrite drop_app_length.
  - apply slice_empty_range.
  - intros Hs. apply slice_empty_range. fold len.
    unfold NativeArray.relative_index.
    destruct (Z.ltb_spec start 0), (Z.ltb_spec end_ 0); lia.
  - intros He. apply slice_empty_range. fold len.
    unfold NativeArray.relative_index.
    destruct (Z.ltb_spec start 0), (Z.ltb_spec end_ 0); lia.
Qed.

(** C10: [slice] clamps its indices to the array: a [start] at or below
    [-len] acts as [0], and an [end] at or above [len] acts as [len]. *)
Theorem slice_clamps a start (end_ : Z) :
  let len := Z.of_nat (length a) in
  (start <= - len ->
   NativeArray.slice a start end_ = NativeArray.slice a 0 end_)
  /\ (len <= end_ ->
      NativeArray.slice a start end_ = NativeArray.slice a start len).
Proof.
  intros len. assert (0 <= len) by lia. split.
  - intros Hs. apply slice_relative; [| done]. fold len.
    unfold NativeArray.relative_index.
    destruct (Z.ltb_spec start 0), (Z.ltb_spec 0 0); lia.
  - intros He. apply slice_relative; [done |]. fold len.
    unfold NativeArray.relative_index.
    destruct (Z.ltb_spec end_ 0), (Z.ltb_spec len 0); lia.
Qed.
End Slice.

(** ** at *)

Section At.
Context {A : Type} `{Inhabited A}.
Implicit Types (a : list A) (index : Z).

(** C3: [at] returns [Just] the element at [index] when [index] lies in
    [0 .. length a - 1], and [Nothing] for every other integer; a negative
    index is never counted from the end. *)
Theorem at_present_iff_in_range a index :
  let len := Z.of_nat (length a) in
  (0 <= index < len ->
   exists x, a !! Z.to_nat index = Some x /\ NativeArray.at_ a index = Just x)
  /\ (index < 0 \/ len <= index -> NativeArray.at_ a index = Nothing)
  /\ (index < 0 -> NativeArray.at_ a index = Nothing).
Proof.
  intros len. unfold NativeArray.at_. fold len.
  destruct (Z.ltb_spec index 0), (Z.geb_spec index len); simpl;
    (split; [| split]); try done; try lia; try (intros [? | ?]; lia).
  intros _.
  assert (Hlt : (Z.to_nat index < length a)%nat) by lia.
  destruct (lookup_lt_is_Some_2 a _ Hlt) as [x Hx].
  exists x. by rewrite (list_lookup_total_correct _ _ _ Hx).
Qed.
End At.

(** ** range *)

Section Range.
Implicit Types (lower upper lp : Z) (result : list Z).

Lemma round_to_double_exact (n : Z) :
  - 2 ^ 53 <= n <= 2 ^ 53 -> NativeArray.round_to_double n = n.
Proof.
  intros Hn. unfold NativeArray.round_to_double.
  destruct (Z.leb_spec (Z.abs n) (2 ^ 53)); [reflexivity | lia].
Qed.

Lemma range_up_step lp upper result :
  - 2 ^ 53 <= lp -> lp < upper -> upper <= 2 ^ 53 ->
  NativeArray.range_up lp upper result =
    NativeArray.range_up (lp + 1) upper (result ++ [lp]).
Proof.
  intros Hlow Hlt Hup. rewrite NativeArray.range_up_equation_1.
  destruct (decide (lp < upper)) as [Hlt' | Hge]; [| lia].
  cbn -[NativeArray.number_add].
  assert (Hadd : NativeArray.number_add lp 1 = lp + 1)
    by (apply round_to_double_exact; lia).
  destruct (decide (lp < NativeArray.number_add lp 1)) as [Hnext | Hstuck];
    [| lia].
  cbn -[NativeArray.number_add]. by rewrite Hadd.
Qed.

Lemma range_up_exit lp upper result :
  upper <= lp -> NativeArray.range_up lp upper result = Some result.
Proof.
  intros Hge. rewrite NativeArray.range_up_equation_1.
  destruct (decide (lp < upper)) as [Hlt | Hge']; [lia | reflexivity].
Qed.

Lemma range_down_step lp upper result :
  - 2 ^ 53 <= upper -> lp > upper -> lp <= 2 ^ 53 ->
  NativeArray.range_down lp upper result =
    NativeArray.range_down (lp - 1) upper (result ++ [lp]).
Proof.
  intros Hlow Hgt Hup. rewrite NativeArray.range_down_equation_1.
  destruct (decide (lp > upper)) as [Hgt' | Hle]; [| lia].
  cbn -[NativeArray.number_sub].
  assert (Hsub : NativeArray.number_sub lp 1 = lp - 1)
    by (apply round_to_double_exact; lia).
  destruct (decide (NativeArray.number_sub lp 1 < lp)) as [Hnext | Hstuck];
    [| lia].
  cbn -[NativeArray.number_sub]. by rewrite Hsub.
Qed.

Lemma range_down_exit lp upper result :
  lp <= upper -> NativeArray.range_down lp upper result = Some result.
Proof.
  intros Hge. rewrite NativeArray.range_down_equation_1.
  destruct (decide (lp > upper)) as [Hlt | Hge']; [lia | reflexivity].
Qed.

Lemma range_up_counts upper :
  upper <= 2 ^ 53 ->
  forall (n : nat) lp result,
    n = Z.to_nat (upper - lp) -> - 2 ^ 53 <= lp ->
    NativeArray.range_up lp upper result =
      Some (result ++ ((fun i : nat => lp + Z.of_nat i) <$> seq 0 n)).
Proof.
  intros Hup. induction n as [| n IH]; intros lp result Hn Hlow.
  - rewrite range_up_exit by lia. simpl. by rewrite app_nil_r.
  - rewrite range_up_step by lia. rewrite (IH (lp + 1)) by lia.
    rewrite <- app_assoc. do 2 f_equal. simpl. rewrite Z.add_0_r. f_equal.
    rewrite <- fmap_S_seq, <- list_fmap_compose.
    apply list_fmap_ext. intros _ i _. simpl. lia.
Qed.

Lemma range_down_counts upper :
  - 2 ^ 53 <= upper ->
  forall (n : nat) lp result,
    n = Z.to_nat (lp - upper) -> lp <= 2 ^ 53 ->
    NativeArray.range_down lp upper result =
      Some (result ++ ((fun i : nat => lp - Z.of_nat i) <$> seq 0 n)).
Proof.
  intros Hlow. induction n as [| n IH]; intros lp result Hn Hup.
  - rewrite range_down_exit by lia. simpl. by rewrite app_nil_r.
  - rewrite range_down_step by lia. rewrite (IH (lp - 1)) by lia.
    rewrite <- app_assoc. do 2 f_equal. simpl. rewrite Z.sub_0_r. f_equal.
    rewrite <- fmap_S_seq, <- list_fmap_compose.
    apply list_fmap_ext. intros _ i _. simpl. lia.
Qed.

Lemma range_ascending lower upper :
  - 2 ^ 53 <= lower -> upper <= 2 ^ 53 -> lower < upper ->
  NativeArray.range lower upper =
    Some ((fun i : nat => lower + Z.of_nat i) <$> seq 0 (Z.to_nat (upper - lower))).
Proof.
  intros Hlow Hup Hlt. unfold NativeArray.range.
  destruct (decide (lower < upper)); [| lia].
  by rewrite (range_up_counts upper Hup (Z.to_nat (upper - lower)) lower []).
Qed.

Lemma range_descending lower upper :
  - 2 ^ 53 <= upper -> lower <= 2 ^ 53 -> upper <= lower ->
  NativeArray.range lower upper =
    Some ((fun i : nat => lower - Z.of_nat i) <$> seq 0 (Z.to_nat (lower - upper))).
Proof.
  intros Hlow Hup Hge. unfold NativeArray.range.
  destruct (decide (lower < upper)); [lia |].
  by rewrite (range_down_counts upper Hlow (Z.to_nat (lower - upper)) lower []).
Qed.


End Range.

(** ** zipWith *)

Section ZipWith.
Context {A B C : Type} `{Inhabited A} `{Inhabited B}.
Implicit Types (f : A -> B -> C) (result : list C).

Lemma zipWith_loop_step f (a1 : list A) (a2 : list B) (upper lp : nat) result :
  (lp < upper)%nat ->
  NativeArray.zipWith_loop f a1 a2 upper lp result =
    NativeArray.zipWith_loop f a1 a2 upper (S lp)
      (result ++ [f (a1 !!! lp) (a2 !!! lp)]).
Proof.
  intros Hlt. rewrite NativeArray.zipWith_loop_equation_1.
  destruct (decide (lp < upper)%nat) as [Hlt' | Hge]; [reflexivity | lia].
Qed.

Lemma zipWith_loop_exit f (a1 : list A) (a2 : list B) (upper lp : nat) result :
  (upper <= lp)%nat ->
  NativeArray.zipWith_loop f a1 a2 upper lp result = result.
Proof.
  intros Hge. rewrite NativeArray.zipWith_loop_equation_1.
  destruct (decide (lp < upper)%nat) as [Hlt | Hge']; [lia | reflexivity].
Qed.

Lemma zip_with_drop_past f (a1 : list A) (a2 : list B) (lp : nat) :
  (Nat.min (length a1) (length a2) <= lp)%nat ->
  zip_with f (drop lp a1) (drop lp a2) = [].
Proof.
  intros Hle. apply nil_length_inv.
  rewrite length_zip_with, !length_drop. lia.
Qed.

(** The loop pairs up what is left of the two arrays from [lp] on. *)
Lemma zipWith_loop_pairs f (a1 : list A) (a2 : list B) :
  forall (n lp : nat) result,
    n = (Nat.min (length a1) (length a2) - lp)%nat ->
    NativeArray.zipWith_loop f a1 a2 (Nat.min (length a1) (length a2)) lp result =
      result ++ zip_with f (drop lp a1) (drop lp a2).
Proof.
  induction n as [| n IH]; intros lp result Hn.
  - rewrite zipWith_loop_exit by lia.
    rewrite zip_with_drop_past by lia. by rewrite app_nil_r.
  - rewrite zipWith_loop_step by lia.
    assert (Hlt1 : (lp < length a1)%nat) by lia.
    assert (Hlt2 : (lp < length a2)%nat) by lia.
    destruct (lookup_lt_is_Some_2 a1 lp Hlt1) as [x Hx].
    destruct (lookup_lt_is_Some_2 a2 lp Hlt2) as [y Hy].
    rewrite (list_lookup_total_correct _ _ _ Hx).
    rewrite (list_lookup_total_correct _ _ _ Hy).
    rewrite IH by lia.
    rewrite (drop_S a1 x lp Hx), (drop_S a2 y lp Hy). simpl.
    by rewrite <- app_assoc.
Qed.

Lemma zipWith_zip_with f (a1 : list A) (a2 : list B) :
  NativeArray.zipWith f a1 a2 = zip_with f a1 a2.
Proof.
  unfold NativeArray.zipWith. cbv zeta.
  by rewrite (zipWith_loop_pairs f a1 a2 (Nat.min (length a1) (length a2) - 0) 0%nat []).
Qed.

(** C7: [zipWith f a1 a2] has the length of the shorter array, holds
    [f (a1[i]) (a2[i])] at each index [i] below it, and is what [zipWith]
    gives on the two arrays cut down to that length. *)
Theorem zipWith_min_length f (a1 : list A) (a2 : list B) :
  let upper := Nat.min (length a1) (length a2) in
  length (NativeArray.zipWith f a1 a2) = upper
  /\ (forall (i : nat), (i < upper)%nat ->
      exists x y, a1 !! i = Some x /\ a2 !! i = Some y /\
                  NativeArray.zipWith f a1 a2 !! i = Some (f x y))
  /\ NativeArray.zipWith f a1 a2 =
       NativeArray.zipWith f (take upper a1) (take upper a2).
Proof.
  intros upper. rewrite !zipWith_zip_with. split; [| split].
  - apply length_zip_with.
  - intros i Hi.
    destruct (lookup_lt_is_Some_2 a1 i ltac:(lia)) as [x Hx].
    destruct (lookup_lt_is_Some_2 a2 i ltac:(lia)) as [y Hy].
    exists x, y. split; [done |]. split; [done |].
    rewrite lookup_zip_with, Hx. simpl. by rewrite Hy.
  - symmetry. by apply zip_with_take_both'.
Qed.
End ZipWith.

(** ** reduce *)

Section Reduce.
Context {A B : Type} `{Inhabited A}.
Implicit Types (a t : list A) (fNil : unit -> B) (fCons : A -> list A -> B).

Lemma Array_slice_from_1 (h : A) t :
  NativeArray.Array_slice (h :: t) 1 None = t.
Proof.
  unfold NativeArray.Array_slice. cbv zeta.
  set (len := Z.of_nat (length (h :: t))).
  assert (Hlen : len = Z.of_nat (length t) + 1) by (subst len; simpl; lia).
  rewrite relative_index_inside by lia.
  rewrite (Array_slice_loop_segment (h :: t) len ltac:(done) (length t) 1 [])
    by lia.
  simpl. by rewrite take_ge.
Qed.

(** C8: on the empty array [reduce] returns [fNil ()]; on an array with
    head [h] and tail [t] it returns [fCons h t], the tail handed over
    whole: one case split, no fold over the elements. *)
Theorem reduce_head_tail fNil fCons :
  NativeArray.reduce [] fNil fCons = fNil tt
  /\ (forall (h : A) t, NativeArray.reduce (h :: t) fNil fCons = fCons h t)
  /\ (forall a, a <> [] ->
      NativeArray.reduce a fNil fCons = fCons (a !!! 0%nat) (drop 1 a)).
Proof.
  split; [reflexivity |]. split.
  - intros h t. unfold NativeArray.reduce. simpl length. simpl Nat.eqb. cbv iota.
    by rewrite Array_slice_from_1.
  - intros [| h t] Hne; [done |].
    unfold NativeArray.reduce. simpl length. simpl Nat.eqb. cbv iota.
    by rewrite Array_slice_from_1.
Qed.
End Reduce.

(** ** concat *)

Section Concat.
Context {A : Type}.

(** C9: the empty array is a left and a right identity of [concat], and
    [concat a1 a2] holds the elements of [a1] followed by those of [a2],
    so its length is the sum of their lengths. *)
Theorem concat_identity_and_length (s a1 a2 : list A) :
  NativeArray.concat s [] = s
  /\ NativeArray.concat [] s = s
  /\ NativeArray.length (NativeArray.concat a1 a2) =
       NativeArray.length a1 + NativeArray.length a2
  /\ (forall i : nat, (i < length a1)%nat ->
      NativeArray.concat a1 a2 !! i = a1 !! i)
  /\ (forall i : nat,
      NativeArray.concat a1 a2 !! (length a1 + i)%nat = a2 !! i).
Proof.
  unfold NativeArray.concat, NativeArray.length.
  split; [apply app_nil_r |]. split; [reflexivity |].
  split; [rewrite length_app; lia |]. split.
  - intros i Hi. by apply lookup_app_l.
  - intros i. by rewrite lookup_app_r, Nat.add_sub' by lia.
Qed.
End Concat.

(** ** sort *)

(** *** The output is a rearrangement of the input, whatever the comparator *)

Section SortPermutation.
Context {A : Type}.
Implicit Types (comparefn : A -> A -> Z) (work sorted rest : list A).

Lemma count_run_le comparefn (isDescending : bool) (previousElement : A) rest :
  (NativeArray.count_run comparefn isDescending previousElement rest <= length rest)%nat.
Proof.
  revert previousElement. induction rest as [| currentElement rest IH];
    intros previousElement; simpl; [lia |].
  destruct (if isDescending then _ else _); [lia |].
  specialize (IH currentElement). lia.
Qed.

Lemma CountAndMakeRun_Permutation comparefn work :
  (NativeArray.CountAndMakeRun comparefn work).1 ≡ₚ work.
Proof.
  destruct work as [| elementHigh [| elementLow rest]]; [done | done |].
  unfold NativeArray.CountAndMakeRun.
  destruct (comparefn elementLow elementHigh <? 0); [| done].
  cbn [fst]. by rewrite reverse_Permutation, take_drop.
Qed.

Lemma BinaryInsertionSort_fold_Permutation comparefn rest :
  forall sorted,
    foldl (fun sorted pivot =>
             let left_ :=
               NativeArray.binary_search comparefn pivot sorted 0 (length sorted) in
             take left_ sorted ++ pivot :: drop left_ sorted) sorted rest
    ≡ₚ sorted ++ rest.
Proof.
  induction rest as [| pivot rest IH]; intros sorted; simpl.
  - by rewrite app_nil_r.
  - rewrite IH. rewrite <- Permutation_middle, take_drop.
    by rewrite (Permutation_middle sorted rest pivot).
Qed.

Lemma BinaryInsertionSort_Permutation comparefn work (start : nat) :
  NativeArray.BinaryInsertionSort comparefn work start ≡ₚ work.
Proof.
  unfold NativeArray.BinaryInsertionSort.
  by rewrite BinaryInsertionSort_fold_Permutation, take_drop.
Qed.

Lemma ArrayTimSort_Permutation comparefn work :
  NativeArray.ArrayTimSort comparefn work ≡ₚ work.
Proof.
  unfold NativeArray.ArrayTimSort.
  destruct (length work <? 2)%nat; [done |].
  pose proof (CountAndMakeRun_Permutation comparefn work) as Hrun.
  destruct (NativeArray.CountAndMakeRun comparefn work) as [work' runLength].
  by rewrite BinaryInsertionSort_Permutation.
Qed.

Lemma filter_split_Permutation (f : A -> bool) (a : list A) :
  List.filter (fun x => negb (f x)) a ++ List.filter f a ≡ₚ a.
Proof.
  induction a as [| x a IH]; simpl; [done |].
  destruct (f x); simpl.
  - by rewrite <- Permutation_middle, IH.
  - by rewrite IH.
Qed.

Lemma Array_sort_Permutation `{NativeArray.IsUndefined A} comparefn (a : list A) :
  NativeArray.Array_sort comparefn a ≡ₚ a.
Proof.
  unfold NativeArray.Array_sort.
  rewrite ArrayTimSort_Permutation. apply filter_split_Permutation.
Qed.
End SortPermutation.

(** *** The built-in only looks at what the comparator says *)

Lemma binary_search_unfold {A : Type} (comparefn : A -> A -> Z) (pivot : A)
    (work : list A) (left_ right_ : nat) :
  NativeArray.binary_search comparefn pivot work left_ right_ =
    if decide (left_ < right_)%nat
    then match work !! (left_ + (right_ - left_) / 2)%nat with
         | Some element =>
             if decide (comparefn pivot element < 0)
             then NativeArray.binary_search comparefn pivot work
                    left_ (left_ + (right_ - left_) / 2)%nat
             else NativeArray.binary_search comparefn pivot work
                    (S (left_ + (right_ - left_) / 2)%nat) right_
         | None => left_
         end
    else left_.
Proof.
  rewrite NativeArray.binary_search_equation_1.
  unfold NativeArray.binary_search_unfold_clause_1,
    NativeArray.binary_search_unfold_clause_1_clause_1,
    NativeArray.binary_search_unfold_clause_1_clause_1_clause_1.
  destruct (decide (left_ < right_)%nat) as [Hlt | Hge]; [| reflexivity].
  destruct (work !! (left_ + (right_ - left_) / 2)%nat) as [element |];
    [| reflexivity].
  destruct (decide (comparefn pivot element < 0)); reflexivity.
Qed.

Lemma list_filter_fmap {A T : Type} (f : A -> bool) (g : T -> A) (l : list T) :
  List.filter f (g <$> l) = g <$> List.filter (fun u => f (g u)) l.
Proof.
  induction l as [| u l IH]; simpl; [done |].
  destruct (f (g u)); simpl; [f_equal |]; apply IH.
Qed.

Section SortFmap.
Context {A T : Type} (g : T -> A) (comparefn : A -> A -> Z).

Local Abbreviation comparefn_g := (fun u v : T => comparefn (g u) (g v)).

Lemma count_run_fmap (isDescending : bool) (previousElement : T) (rest : list T) :
  NativeArray.count_run comparefn_g isDescending previousElement rest =
    NativeArray.count_run comparefn isDescending (g previousElement) (g <$> rest).
Proof.
  revert previousElement. induction rest as [| currentElement rest IH];
    intros previousElement; simpl; [done |].
  destruct (if isDescending then _ else _); [done |]. f_equal. apply IH.
Qed.

Lemma CountAndMakeRun_fmap (work : list T) :
  NativeArray.CountAndMakeRun comparefn (g <$> work) =
    (g <$> (NativeArray.CountAndMakeRun comparefn_g work).1,
     (NativeArray.CountAndMakeRun comparefn_g work).2).
Proof.
  destruct work as [| elementHigh [| elementLow rest]]; [done | done |].
  change (g <$> elementHigh :: elementLow :: rest)
    with (g elementHigh :: g elementLow :: (g <$> rest)).
  unfold NativeArray.CountAndMakeRun. cbv zeta.
  rewrite <- count_run_fmap.
  cbv beta.
  destruct (comparefn (g elementLow) (g elementHigh) <? 0); [| done].
  cbn [fst snd]. f_equal.
  change (g elementHigh :: g elementLow :: (g <$> rest))
    with (g <$> elementHigh :: elementLow :: rest).
  by rewrite fmap_app, fmap_reverse, fmap_take, fmap_drop.
Qed.

Lemma binary_search_fmap (pivot : T) (work : list T) :
  forall (n left_ right_ : nat),
    n = (right_ - left_)%nat ->
    NativeArray.binary_search comparefn_g pivot work left_ right_ =
      NativeArray.binary_search comparefn (g pivot) (g <$> work) left_ right_.
Proof.
  induction n as [n IH] using lt_wf_ind; intros left_ right_ Hn.
  rewrite (binary_search_unfold comparefn_g), (binary_search_unfold comparefn).
  destruct (decide (left_ < right_)%nat) as [Hlt | Hge]; [| done].
  pose proof (Nat.div_lt (right_ - left_) 2 ltac:(lia) ltac:(lia)) as Hmid.
  set (mid := (left_ + (right_ - left_) / 2)%nat) in *.
  rewrite list_lookup_fmap. destruct (work !! mid) as [element |]; [| done].
  simpl.
  destruct (decide (comparefn (g pivot) (g element) < 0)).
  - apply (IH (mid - left_)%nat); lia.
  - apply (IH (right_ - S mid)%nat); lia.
Qed.

Lemma BinaryInsertionSort_fold_fmap (rest : list T) :
  forall sorted : list T,
    g <$> foldl (fun sorted pivot =>
                   let left_ :=
                     NativeArray.binary_search comparefn_g pivot sorted 0
                       (length sorted) in
                   take left_ sorted ++ pivot :: drop left_ sorted) sorted rest =
    foldl (fun sorted pivot =>
             let left_ :=
               NativeArray.binary_search comparefn pivot sorted 0 (length sorted) in
             take left_ sorted ++ pivot :: drop left_ sorted)
          (g <$> sorted) (g <$> rest).
Proof.
  induction rest as [| pivot rest IH]; intros sorted; simpl; [done |].
  rewrite IH. f_equal.
  rewrite (binary_search_fmap pivot sorted (length sorted - 0)) by done.
  rewrite length_fmap.
  by rewrite fmap_app, fmap_cons, fmap_take, fmap_drop.
Qed.

Lemma ArrayTimSort_fmap (work : list T) :
  g <$> NativeArray.ArrayTimSort comparefn_g work =
    NativeArray.ArrayTimSort comparefn (g <$> work).
Proof.
  unfold NativeArray.ArrayTimSort. rewrite length_fmap.
  destruct (length work <? 2)%nat; [done |].
  rewrite CountAndMakeRun_fmap.
  destruct (NativeArray.CountAndMakeRun comparefn_g work) as [work' runLength].
  cbn [fst snd]. unfold NativeArray.BinaryInsertionSort.
  by rewrite BinaryInsertionSort_fold_fmap, fmap_take, fmap_drop.
Qed.

(** Ordering tagged elements by their values and then dropping the tags is
    ordering the values, when a tagged element is [undefined] exactly when
    its value is. *)
Lemma Array_sort_fmap `{NativeArray.IsUndefined A} `{NativeArray.IsUndefined T}
    (l : list T) :
  (forall u, NativeArray.is_undefined u = NativeArray.is_undefined (g u)) ->
  g <$> NativeArray.Array_sort comparefn_g l =
    NativeArray.Array_sort comparefn (g <$> l).
Proof.
  intros Hundefined. unfold NativeArray.Array_sort.
  rewrite fmap_app, ArrayTimSort_fmap, !list_filter_fmap.
  do 2 f_equal.
  - f_equal. apply filter_ext. intros u. by rewrite Hundefined.
  - apply filter_ext. intros u. by rewrite Hundefined.
Qed.
End SortFmap.

(** *** A consistent comparator *)

Section Consistent.
Context {A : Type} (comparefn : A -> A -> Z).
Implicit Types (values : list A).

Lemma consistent_subseteq values values' :
  NativeArray.consistent comparefn values ->
  (forall x, x ∈ values' -> x ∈ values) ->
  NativeArray.consistent comparefn values'.
Proof.
  intros (Hrefl & Hsym & Heq & Hlt & Hgt) Hsub.
  repeat split; intros; eauto 8.
Qed.

Lemma consistent_lt_gt values x y :
  NativeArray.consistent comparefn values -> x ∈ values -> y ∈ values ->
  comparefn x y < 0 -> comparefn y x > 0.
Proof.
  intros (Hrefl & Hsym & Heq & Hlt & Hgt) Hx Hy Hxy.
  destruct (Z.lt_trichotomy (comparefn y x) 0) as [Hyx | [Hyx | Hyx]]; [| | lia].
  - pose proof (Hlt x y x Hx Hy Hx Hxy Hyx). pose proof (Hrefl x Hx). lia.
  - pose proof (Hsym y x Hy Hx Hyx). lia.
Qed.

Lemma consistent_gt_lt values x y :
  NativeArray.consistent comparefn values -> x ∈ values -> y ∈ values ->
  comparefn x y > 0 -> comparefn y x < 0.
Proof.
  intros (Hrefl & Hsym & Heq & Hlt & Hgt) Hx Hy Hxy.
  destruct (Z.lt_trichotomy (comparefn y x) 0) as [Hyx | [Hyx | Hyx]]; [lia | |].
  - pose proof (Hsym y x Hy Hx Hyx). lia.
  - pose proof (Hgt x y x Hx Hy Hx Hxy ltac:(lia)). pose proof (Hrefl x Hx). lia.
Qed.

(** Not less means greater or equal the other way round. *)
Lemma consistent_ge_le values x y :
  NativeArray.consistent comparefn values -> x ∈ values -> y ∈ values ->
  ~ comparefn x y < 0 -> comparefn y x <= 0.
Proof.
  intros Hc Hx Hy Hxy.
  destruct (Z.lt_trichotomy (comparefn x y) 0) as [? | [Heq0 | Hgt0]]; [lia | |].
  - destruct Hc as (_ & Hsym & _). pose proof (Hsym x y Hx Hy Heq0). lia.
  - pose proof (consistent_gt_lt values x y Hc Hx Hy ltac:(lia)). lia.
Qed.

Lemma consistent_lt_le_trans values x y z :
  NativeArray.consistent comparefn values ->
  x ∈ values -> y ∈ values -> z ∈ values ->
  comparefn x y < 0 -> comparefn y z <= 0 -> comparefn x z < 0.
Proof.
  intros Hc Hx Hy Hz Hxy Hyz.
  pose proof Hc as (Hrefl & Hsym & Heq & Hlt & Hgt).
  destruct (Z.lt_trichotomy (comparefn y z) 0) as [Hyz' | [Hyz' | ?]]; [| | lia].
  { by apply (Hlt x y z). }
  destruct (Z.lt_trichotomy (comparefn x z) 0) as [? | [Hxz | Hxz]]; [done | |].
  - pose proof (Hsym y z Hy Hz Hyz'). pose proof (Heq x z y Hx Hz Hy Hxz ltac:(done)).
    lia.
  - pose proof (consistent_gt_lt values x z Hc Hx Hz ltac:(lia)) as Hzx.
    pose proof (Hlt z x y Hz Hx Hy Hzx Hxy).
    pose proof (Hsym y z Hy Hz Hyz'). lia.
Qed.

Lemma consistent_eq_lt_trans values x y z :
  NativeArray.consistent comparefn values ->
  x ∈ values -> y ∈ values -> z ∈ values ->
  comparefn x y = 0 -> comparefn y z < 0 -> comparefn x z < 0.
Proof.
  intros Hc Hx Hy Hz Hxy Hyz.
  pose proof Hc as (Hrefl & Hsym & Heq & Hlt & Hgt).
  destruct (Z.lt_trichotomy (comparefn x z) 0) as [? | [Hxz | Hxz]]; [done | |].
  - pose proof (Hsym x y Hx Hy Hxy). pose proof (Heq y x z Hy Hx Hz ltac:(done) Hxz).
    lia.
  - pose proof (consistent_gt_lt values x z Hc Hx Hz ltac:(lia)) as Hzx.
    pose proof (Hlt y z x Hy Hz Hx Hyz Hzx).
    pose proof (Hsym x y Hx Hy Hxy). lia.
Qed.

Lemma consistent_le_trans values x y z :
  NativeArray.consistent comparefn values ->
  x ∈ values -> y ∈ values -> z ∈ values ->
  comparefn x y <= 0 -> comparefn y z <= 0 -> comparefn x z <= 0.
Proof.
  intros Hc Hx Hy Hz Hxy Hyz.
  destruct (Z.lt_trichotomy (comparefn x y) 0) as [Hxy' | [Hxy' | ?]]; [| | lia].
  { pose proof (consistent_lt_le_trans values x y z Hc Hx Hy Hz Hxy' Hyz). lia. }
  destruct (Z.lt_trichotomy (comparefn y z) 0) as [Hyz' | [Hyz' | ?]]; [| | lia].
  - pose proof (consistent_eq_lt_trans values x y z Hc Hx Hy Hz Hxy' Hyz'). lia.
  - destruct Hc as (_ & _ & Heq & _). pose proof (Heq x y z Hx Hy Hz Hxy' Hyz'). lia.
Qed.
End Consistent.

(** *** Sorted lists and pairs of positions *)

Section SortedFacts.
Context {A : Type}.
Implicit Types (R : A -> A -> Prop) (l : list A).

Lemma sublist_reverse (l1 l2 : list A) :
  l1 `sublist_of` l2 -> reverse l1 `sublist_of` reverse l2.
Proof.
  induction 1 as [| x l1 l2 _ IH | x l1 l2 _ IH]; [done | |].
  - rewrite !reverse_cons. by apply sublist_app.
  - rewrite reverse_cons. by apply sublist_inserts_r.
Qed.

Lemma sublist_pair_lookup l (x y : A) :
  [x; y] `sublist_of` l <->
  exists p q : nat, (p < q)%nat /\ l !! p = Some x /\ l !! q = Some y.
Proof.
  split.
  - intros (k1 & k2 & -> & Hy%singleton_sublist_l)%sublist_cons_l.
    apply list_elem_of_lookup in Hy as [q Hq].
    exists (length k1), (length k1 + S q)%nat. split; [lia |]. split.
    + by rewrite list_lookup_middle.
    + by rewrite lookup_app_r, Nat.add_sub' by lia.
  - intros (p & q & Hpq & Hp & Hq).
    rewrite <- (take_drop_middle l p x Hp).
    apply sublist_inserts_l, sublist_skip, singleton_sublist_l.
    apply list_elem_of_lookup. exists (q - S p)%nat.
    rewrite lookup_drop. by replace (S p + (q - S p))%nat with q by lia.
Qed.

Lemma sublist_pair_elem_of l (x y : A) :
  [x; y] `sublist_of` l -> x ∈ l /\ y ∈ l.
Proof.
  intros (p & q & _ & Hp & Hq)%sublist_pair_lookup.
  split; by eapply list_elem_of_lookup_2.
Qed.

(** A pair in a concatenation lies in the first part, in the second part,
    or across the two. *)
Lemma sublist_pair_app (l1 l2 : list A) (x y : A) :
  [x; y] `sublist_of` l1 ++ l2 ->
  [x; y] `sublist_of` l1 \/ (x ∈ l1 /\ y ∈ l2) \/ [x; y] `sublist_of` l2.
Proof.
  intros (k1 & k2 & Hk & Hk1 & Hk2)%sublist_app_r.
  destruct k1 as [| x' [| y' k1]]; simpl in Hk.
  - subst k2. by right; right.
  - injection Hk as <- <-. right; left.
    split; by apply singleton_sublist_l.
  - injection Hk as <- <- Hnil. symmetry in Hnil.
    apply app_eq_nil in Hnil as [-> ->]. by left.
Qed.

Lemma sublist_pair_across (l1 l2 : list A) (x y : A) :
  x ∈ l1 -> y ∈ l2 -> [x; y] `sublist_of` l1 ++ l2.
Proof.
  intros Hx%singleton_sublist_l Hy%singleton_sublist_l.
  by apply (sublist_app [x] l1 [y] l2).
Qed.

Lemma StronglySorted_sublist_pair R l (x y : A) :
  StronglySorted R l -> [x; y] `sublist_of` l -> R x y.
Proof.
  intros Hsorted (k1 & k2 & -> & Hy%singleton_sublist_l)%sublist_cons_l.
  apply StronglySorted_app_1_r, StronglySorted_cons in Hsorted as [Hx _].
  rewrite Forall_forall in Hx. by apply Hx.
Qed.

Lemma StronglySorted_lookup R l (p q : nat) (x y : A) :
  StronglySorted R l -> (p < q)%nat -> l !! p = Some x -> l !! q = Some y -> R x y.
Proof.
  intros Hsorted Hpq Hp Hq. apply (StronglySorted_sublist_pair R l); [done |].
  apply sublist_pair_lookup. eauto.
Qed.

Lemma StronglySorted_reverse R l :
  StronglySorted R l -> StronglySorted (flip R) (reverse l).
Proof.
  induction l as [| x l IH]; [constructor |].
  intros [Hx Hl]%StronglySorted_cons. rewrite reverse_cons.
  apply StronglySorted_app_2; [| by apply IH | repeat constructor].
  intros x1 x2 Hx1 ->%list_elem_of_singleton.
  rewrite elem_of_reverse in Hx1. rewrite Forall_forall in Hx. exact (Hx x1 Hx1).
Qed.

Lemma StronglySorted_weaken R (R' : A -> A -> Prop) l :
  (forall x y, x ∈ l -> y ∈ l -> R x y -> R' x y) ->
  StronglySorted R l -> StronglySorted R' l.
Proof.
  induction l as [| x l IH]; intros Himpl; [constructor |].
  intros [Hx Hl]%StronglySorted_cons. apply StronglySorted_cons. split.
  - rewrite Forall_forall in *. intros y Hy.
    apply Himpl; [apply list_elem_of_here | by apply list_elem_of_further | by apply Hx].
  - apply IH; [| done]. intros y z Hy Hz.
    apply Himpl; by apply list_elem_of_further.
Qed.
End SortedFacts.

(** *** The binary search finds the place that keeps the order *)

Section BinarySearch.
Context {A : Type} (comparefn : A -> A -> Z) (pivot : A) (work : list A).
Hypothesis comparefn_consistent : NativeArray.consistent comparefn (pivot :: work).
Hypothesis work_sorted : StronglySorted (fun x y => comparefn x y <= 0) work.

Lemma binary_search_place :
  forall (n left_ right_ : nat),
    n = (right_ - left_)%nat -> (left_ <= right_ <= length work)%nat ->
    (forall (i : nat) e, (i < left_)%nat -> work !! i = Some e ->
                         ~ comparefn pivot e < 0) ->
    (forall (i : nat) e, (right_ <= i)%nat -> work !! i = Some e ->
                         comparefn pivot e < 0) ->
    let k := NativeArray.binary_search comparefn pivot work left_ right_ in
    (left_ <= k <= right_)%nat
    /\ (forall (i : nat) e, (i < k)%nat -> work !! i = Some e ->
                            ~ comparefn pivot e < 0)
    /\ (forall (i : nat) e, (k <= i)%nat -> work !! i = Some e ->
                            comparefn pivot e < 0).
Proof.
  induction n as [n IH] using lt_wf_ind.
  intros left_ right_ Hn Hbounds Hbelow Habove. cbv zeta.
  rewrite binary_search_unfold.
  destruct (decide (left_ < right_)%nat) as [Hlt | Hge].
  2: { assert (left_ = right_) as -> by lia. by repeat split; [lia .. | |]. }
  pose proof (Nat.div_lt (right_ - left_) 2 ltac:(lia) ltac:(lia)) as Hhalf.
  set (mid := (left_ + (right_ - left_) / 2)%nat) in *.
  destruct (lookup_lt_is_Some_2 work mid ltac:(lia)) as [element Hmid].
  rewrite Hmid.
  assert (Hpivot : pivot ∈ pivot :: work) by apply list_elem_of_here.
  assert (Hwork : forall (i : nat) e, work !! i = Some e -> e ∈ pivot :: work).
  { intros i e He. apply list_elem_of_further. by eapply list_elem_of_lookup_2. }
  destruct (decide (comparefn pivot element < 0)) as [Hless | Hnotless].
  - destruct (IH (mid - left_)%nat ltac:(lia) left_ mid eq_refl ltac:(lia) Hbelow)
      as (Hk & Hk1 & Hk2).
    + intros i e Hi He. destruct (decide (i = mid)) as [-> | Hne].
      * rewrite Hmid in He. by injection He as <-.
      * assert (comparefn element e <= 0)
          by exact (StronglySorted_lookup (fun x y => comparefn x y <= 0) work
                      mid i element e work_sorted ltac:(lia) Hmid He).
        eapply (consistent_lt_le_trans comparefn _ pivot element e); eauto.
    + repeat split; [lia | lia | done | done].
  - destruct (IH (right_ - S mid)%nat ltac:(lia) (S mid) right_ eq_refl ltac:(lia))
      as (Hk & Hk1 & Hk2); [| done |].
    + intros i e Hi He Hless. destruct (decide (i = mid)) as [-> | Hne].
      * rewrite Hmid in He. by injection He as <-.
      * assert (comparefn e element <= 0)
          by exact (StronglySorted_lookup (fun x y => comparefn x y <= 0) work
                      i mid e element work_sorted ltac:(lia) He Hmid).
        apply Hnotless.
        eapply (consistent_lt_le_trans comparefn _ pivot e element); eauto.
    + repeat split; [lia | lia | done | done].
Qed.

(** Putting [pivot] at the place found splits the ordered part into what
    does not compare greater than [pivot] and what does, and leaves the
    whole in order. *)
Lemma binary_insert_place :
  let left_ := NativeArray.binary_search comparefn pivot work 0 (length work) in
  Forall (fun e => ~ comparefn pivot e < 0) (take left_ work)
  /\ Forall (fun e => comparefn pivot e < 0) (drop left_ work)
  /\ StronglySorted (fun x y => comparefn x y <= 0)
       (take left_ work ++ pivot :: drop left_ work).
Proof.
  cbv zeta.
  destruct (binary_search_place (length work - 0) 0 (length work) eq_refl)
    as (Hk & Hbelow & Habove); [lia | intros; lia | |].
  { intros i e Hi He. apply lookup_lt_Some in He. lia. }
  set (k := NativeArray.binary_search comparefn pivot work 0 (length work)) in *.
  assert (Htake : Forall (fun e => ~ comparefn pivot e < 0) (take k work)).
  { apply Forall_lookup. intros i e He.
    apply lookup_take_Some in He as [He Hi]. by apply (Hbelow i). }
  assert (Hdrop : Forall (fun e => comparefn pivot e < 0) (drop k work)).
  { apply Forall_lookup. intros i e He. rewrite lookup_drop in He.
    apply (Habove (k + i)%nat); [lia | done]. }
  split; [done |]. split; [done |].
  assert (Hin : forall e, e ∈ work -> e ∈ pivot :: work)
    by (intros; by apply list_elem_of_further).
  rewrite <- (take_drop k work) in work_sorted.
  apply StronglySorted_app in work_sorted as (Hcross & Hsorted1 & Hsorted2).
  apply StronglySorted_app_2; [| done |].
  - intros x1 x2 Hx1 [-> | Hx2]%elem_of_cons.
    + rewrite Forall_forall in Htake.
      apply (consistent_ge_le comparefn (pivot :: work));
        [done | apply list_elem_of_here | | by apply Htake].
      apply Hin. rewrite <- (take_drop k work). apply elem_of_app. by left.
    + by apply Hcross.
  - apply StronglySorted_cons. split; [| done].
    eapply Forall_impl; [exact Hdrop |]. intros e He. simpl in He. lia.
Qed.
End BinarySearch.

(** *** Under a consistent comparator the output is in order and stable *)

Section SortConsistent.
Context {A : Type} (comparefn : A -> A -> Z).
Implicit Types (work sorted rest : list A).

Local Abbreviation le := (fun x y : A => comparefn x y <= 0).

Lemma BinaryInsertionSort_fold_spec rest :
  forall sorted,
    NativeArray.consistent comparefn (sorted ++ rest) ->
    StronglySorted le sorted ->
    let out :=
      foldl (fun sorted pivot =>
               let left_ :=
                 NativeArray.binary_search comparefn pivot sorted 0 (length sorted) in
               take left_ sorted ++ pivot :: drop left_ sorted) sorted rest in
    StronglySorted le out
    /\ (forall x y, [x; y] `sublist_of` sorted ++ rest -> comparefn x y = 0 ->
                    [x; y] `sublist_of` out).
Proof.
  induction rest as [| pivot rest IH]; intros sorted Hc Hsorted; cbv zeta.
  { simpl. rewrite app_nil_r. by split. }
  simpl foldl.
  set (k := NativeArray.binary_search comparefn pivot sorted 0 (length sorted)).
  set (sorted' := take k sorted ++ pivot :: drop k sorted).
  assert (Hc1 : NativeArray.consistent comparefn (pivot :: sorted)).
  { apply (consistent_subseteq comparefn _ _ Hc). intros x Hx.
    rewrite elem_of_app, elem_of_cons. rewrite elem_of_cons in Hx. tauto. }
  destruct (binary_insert_place comparefn pivot sorted Hc1 Hsorted)
    as (Htake & Hdrop & Hsorted'). fold k in Htake, Hdrop, Hsorted'.
  fold sorted' in Hsorted'.
  assert (Hperm : sorted' ≡ₚ pivot :: sorted).
  { unfold sorted'. by rewrite <- Permutation_middle, take_drop. }
  assert (Hc' : NativeArray.consistent comparefn (sorted' ++ rest)).
  { apply (consistent_subseteq comparefn _ _ Hc). intros x.
    rewrite !elem_of_app, Hperm, !elem_of_cons. tauto. }
  destruct (IH sorted' Hc' Hsorted') as [Hout Hkeep]. split; [exact Hout |].
  intros x y Hxy Heq. apply Hkeep; [| done].
  apply sublist_pair_app in Hxy as [Hxy | [[Hx Hy] | Hxy]].
  - apply sublist_inserts_r. transitivity sorted; [done |].
    rewrite <- (take_drop k sorted) at 1. unfold sorted'.
    apply sublist_app; [done | by apply sublist_cons].
  - apply elem_of_cons in Hy as [-> | Hy].
    + apply sublist_inserts_r. unfold sorted'.
      apply sublist_pair_across; [| apply list_elem_of_here].
      rewrite <- (take_drop k sorted) in Hx.
      apply elem_of_app in Hx as [Hx | Hx]; [done |].
      rewrite Forall_forall in Hdrop. specialize (Hdrop x Hx).
      destruct Hc1 as (_ & Hsym & _).
      assert (comparefn pivot x = 0); [| lia].
      apply Hsym; [| apply list_elem_of_here | done].
      apply list_elem_of_further. rewrite <- (take_drop k sorted).
      apply elem_of_app. by right.
    + apply sublist_pair_across; [| done]. rewrite Hperm.
      by apply list_elem_of_further.
  - apply sublist_cons_r in Hxy as [Hxy | (l' & Hl' & Hy)].
    + by apply sublist_inserts_l.
    + injection Hl' as -> <-. apply singleton_sublist_l in Hy.
      apply sublist_pair_across; [| done]. rewrite Hperm. apply list_elem_of_here.
Qed.

(** The elements that [count_run] takes continue the run. *)
Lemma count_run_sorted (R : A -> A -> Prop) (values : list A) (isDescending : bool) :
  (forall p c, p ∈ values -> c ∈ values ->
     (if isDescending then comparefn c p >=? 0 else comparefn c p <? 0) = false ->
     R p c) ->
  (forall x y z, x ∈ values -> y ∈ values -> z ∈ values -> R x y -> R y z -> R x z) ->
  forall rest previousElement,
    (forall e, e ∈ previousElement :: rest -> e ∈ values) ->
    StronglySorted R
      (previousElement ::
         take (NativeArray.count_run comparefn isDescending previousElement rest) rest).
Proof.
  intros Hstep Htrans.
  induction rest as [| currentElement rest IH]; intros previousElement Hin; simpl.
  { repeat constructor. }
  destruct (if isDescending then _ else _) eqn:Hbreak; simpl.
  { repeat constructor. }
  assert (Hprev : previousElement ∈ values) by (apply Hin, list_elem_of_here).
  assert (Hcur : currentElement ∈ values)
    by (apply Hin, list_elem_of_further, list_elem_of_here).
  assert (Hin' : forall e, e ∈ currentElement :: rest -> e ∈ values)
    by (intros e He; by apply Hin, list_elem_of_further).
  specialize (IH currentElement Hin').
  pose proof (Hstep previousElement currentElement Hprev Hcur Hbreak) as Hfirst.
  apply StronglySorted_cons. split; [| done].
  constructor; [done |].
  apply StronglySorted_cons in IH as [Hforall _].
  rewrite Forall_forall in *. intros e He.
  apply (Htrans previousElement currentElement e); auto.
  apply Hin', list_elem_of_further. eapply subseteq_take, He.
Qed.

Lemma count_run_ascending rest previousElement :
  NativeArray.consistent comparefn (previousElement :: rest) ->
  StronglySorted le
    (previousElement ::
       take (NativeArray.count_run comparefn false previousElement rest) rest).
Proof.
  intros Hc.
  apply (count_run_sorted le (previousElement :: rest) false); [| | done].
  - intros p c Hp Hcur Hbreak. apply Z.ltb_ge in Hbreak.
    apply (consistent_ge_le comparefn _ c p Hc); [done | done | lia].
  - intros x y z Hx Hy Hz. by apply (consistent_le_trans comparefn _ x y z Hc).
Qed.

Lemma count_run_descending rest previousElement :
  NativeArray.consistent comparefn (previousElement :: rest) ->
  StronglySorted (fun p c => comparefn c p < 0)
    (previousElement ::
       take (NativeArray.count_run comparefn true previousElement rest) rest).
Proof.
  intros Hc.
  apply (count_run_sorted (fun p c => comparefn c p < 0)
           (previousElement :: rest) true); [| | done].
  - intros p c Hp Hcur Hbreak. unfold Z.geb in Hbreak.
    destruct (comparefn c p ?= 0) eqn:Hcmp; try discriminate.
    by apply Z.compare_lt_iff.
  - intros x y z Hx Hy Hz Hxy Hyz. destruct Hc as (_ & _ & _ & Hlt & _).
    by apply (Hlt z y x).
Qed.

Lemma CountAndMakeRun_spec work :
  NativeArray.consistent comparefn work ->
  StronglySorted le
    (take (NativeArray.CountAndMakeRun comparefn work).2
          (NativeArray.CountAndMakeRun comparefn work).1)
  /\ (forall x y, [x; y] `sublist_of` work -> comparefn x y = 0 ->
                  [x; y] `sublist_of` (NativeArray.CountAndMakeRun comparefn work).1).
Proof.
  intros Hc. destruct work as [| elementHigh [| elementLow rest]].
  { simpl. split; [constructor | done]. }
  { simpl. split; [repeat constructor | done]. }
  unfold NativeArray.CountAndMakeRun.
  destruct (comparefn elementLow elementHigh <? 0) eqn:Horder; cbv zeta.
  - set (n := (2 + NativeArray.count_run comparefn true elementLow rest)%nat).
    set (work := elementHigh :: elementLow :: rest).
    assert (Hn : (n <= length work)%nat).
    { subst n work. simpl.
      pose proof (count_run_le comparefn true elementLow rest). lia. }
    assert (Hrun : StronglySorted (fun p c => comparefn c p < 0) (take n work)).
    { pose proof (count_run_descending (elementLow :: rest) elementHigh Hc) as Hd.
      simpl in Hd. replace (comparefn elementLow elementHigh >=? 0) with false in Hd
        by (symmetry; unfold Z.geb; apply Z.ltb_lt in Horder;
            by destruct (Z.compare_spec (comparefn elementLow elementHigh) 0); try lia).
      exact Hd. }
    change (NativeArray.consistent comparefn work) in Hc. clearbody n work.
    simpl fst. simpl snd. split.
    + rewrite take_app_length' by (rewrite length_reverse, length_take; lia).
      apply StronglySorted_reverse in Hrun.
      eapply StronglySorted_weaken; [| exact Hrun]. simpl. intros x y _ _ Hxy. lia.
    + intros x y Hxy Heq. rewrite <- (take_drop n work) in Hxy.
      apply sublist_pair_app in Hxy as [Hxy | [[Hx Hy] | Hxy]].
      * pose proof (StronglySorted_sublist_pair _ _ _ _ Hrun Hxy) as Hlt.
        simpl in Hlt.
        assert (comparefn x y > 0); [| lia].
        apply sublist_pair_elem_of in Hxy as [Hx Hy].
        apply (consistent_lt_gt comparefn _ y x Hc); [| | done].
        -- by apply (subseteq_take n work).
        -- by apply (subseteq_take n work).
      * apply sublist_pair_across; [| done]. by apply elem_of_reverse.
      * by apply sublist_inserts_l.
  - simpl fst. simpl snd. split; [| done].
    pose proof (count_run_ascending (elementLow :: rest) elementHigh Hc) as Hd.
    simpl in Hd. rewrite Horder in Hd. exact Hd.
Qed.

Lemma ArrayTimSort_spec work :
  NativeArray.consistent comparefn work ->
  StronglySorted le (NativeArray.ArrayTimSort comparefn work)
  /\ (forall x y, [x; y] `sublist_of` work -> comparefn x y = 0 ->
                  [x; y] `sublist_of` NativeArray.ArrayTimSort comparefn work).
Proof.
  intros Hc. unfold NativeArray.ArrayTimSort.
  destruct (length work <? 2)%nat eqn:Hshort.
  { split; [| done]. apply Nat.ltb_lt in Hshort.
    destruct work as [| x [| y work]]; [constructor | repeat constructor |].
    simpl in Hshort. lia. }
  destruct (CountAndMakeRun_spec work Hc) as [Hrun Hkeep].
  pose proof (CountAndMakeRun_Permutation comparefn work) as Hperm.
  destruct (NativeArray.CountAndMakeRun comparefn work) as [work' runLength].
  simpl in Hrun, Hkeep, Hperm. unfold NativeArray.BinaryInsertionSort.
  assert (Hc' : NativeArray.consistent comparefn
                  (take runLength work' ++ drop runLength work')).
  { rewrite take_drop. apply (consistent_subseteq comparefn _ _ Hc).
    intros x. by rewrite Hperm. }
  destruct (BinaryInsertionSort_fold_spec (drop runLength work')
              (take runLength work') Hc' Hrun) as [Hsorted Hkeep'].
  split; [exact Hsorted |].
  intros x y Hxy Heq. apply Hkeep'; [| done]. rewrite take_drop. by apply Hkeep.
Qed.
End SortConsistent.

(** *** The whole of [Array_sort], with the [undefined] elements *)

Lemma elem_of_list_filter_bool {A : Type} (f : A -> bool) (l : list A) (x : A) :
  x ∈ List.filter f l <-> x ∈ l /\ f x = true.
Proof. rewrite !list_elem_of_In. apply filter_In. Qed.

Lemma sublist_list_filter {A : Type} (f : A -> bool) (l1 l2 : list A) :
  l1 `sublist_of` l2 -> List.filter f l1 `sublist_of` List.filter f l2.
Proof.
  induction 1 as [| x l1 l2 _ IH | x l1 l2 _ IH]; simpl; [done | |].
  - destruct (f x); [by apply sublist_skip | done].
  - destruct (f x); [by apply sublist_cons | done].
Qed.

Lemma consistent_fmap {A T : Type} (g : T -> A) (comparefn : A -> A -> Z)
    (l : list T) :
  NativeArray.consistent comparefn (g <$> l) ->
  NativeArray.consistent (fun u v => comparefn (g u) (g v)) l.
Proof.
  intros (Hrefl & Hsym & Heq & Hlt & Hgt).
  assert (Hin : forall u, u ∈ l -> g u ∈ g <$> l)
    by (intros u Hu; by apply list_elem_of_fmap_2).
  repeat split; intros; eauto 8.
Qed.

Section SortUndefined.
Context {A : Type} `{NativeArray.IsUndefined A} (comparefn : A -> A -> Z).
Implicit Types (a : list A).

(** The output is the [defined] elements in order, then the [undefined]
    ones. *)
Lemma Array_sort_ordered a :
  NativeArray.consistent comparefn (NativeArray.defined a) ->
  forall (p q : nat) (x y : A),
    (p < q)%nat ->
    NativeArray.Array_sort comparefn a !! p = Some x ->
    NativeArray.Array_sort comparefn a !! q = Some y ->
    NativeArray.is_undefined y = false ->
    NativeArray.is_undefined x = false /\ comparefn x y <= 0.
Proof.
  intros Hc p q x y Hpq Hp Hq Hy.
  destruct (ArrayTimSort_spec comparefn _ Hc) as [Hsorted _].
  unfold NativeArray.Array_sort in Hp, Hq. fold (NativeArray.defined a) in Hp, Hq.
  set (sorted := NativeArray.ArrayTimSort comparefn (NativeArray.defined a)) in *.
  assert (Hq' : sorted !! q = Some y).
  { apply lookup_app_Some in Hq as [Hq | [_ Hq]]; [done |].
    apply list_elem_of_lookup_2, elem_of_list_filter_bool in Hq as [_ Hq].
    congruence. }
  assert (Hp' : sorted !! p = Some x).
  { apply lookup_lt_Some in Hq'. by rewrite lookup_app_l in Hp by lia. }
  split.
  - assert (Hx : x ∈ NativeArray.defined a).
    { rewrite <- (ArrayTimSort_Permutation comparefn). by eapply list_elem_of_lookup_2. }
    apply elem_of_list_filter_bool in Hx as [_ Hx]. by apply negb_true_iff.
  - by apply (StronglySorted_lookup (fun x y => comparefn x y <= 0) sorted p q).
Qed.

(** Stability, on occurrences. *)
Lemma Array_sort_keeps_order a (x y : A) :
  NativeArray.consistent comparefn (NativeArray.defined a) ->
  [x; y] `sublist_of` a -> comparefn x y = 0 ->
  (NativeArray.is_undefined x = true -> NativeArray.is_undefined y = true) ->
  [x; y] `sublist_of` NativeArray.Array_sort comparefn a.
Proof.
  intros Hc Hxy Heq Hundefined.
  destruct (ArrayTimSort_spec comparefn _ Hc) as [_ Hkeep].
  unfold NativeArray.Array_sort. fold (NativeArray.defined a).
  destruct (NativeArray.is_undefined x) eqn:Hx.
  - specialize (Hundefined eq_refl). apply sublist_inserts_l.
    apply (sublist_list_filter NativeArray.is_undefined) in Hxy.
    simpl in Hxy. by rewrite Hx, Hundefined in Hxy.
  - destruct (NativeArray.is_undefined y) eqn:Hy.
    + apply sublist_pair_elem_of in Hxy as [Hinx Hiny].
      apply sublist_pair_across.
      * rewrite (ArrayTimSort_Permutation comparefn).
        apply elem_of_list_filter_bool. split; [done |]. by rewrite Hx.
      * by apply elem_of_list_filter_bool.
    + apply sublist_inserts_r, Hkeep; [| done].
      apply (sublist_list_filter
               (fun x => negb (NativeArray.is_undefined x))) in Hxy.
      simpl in Hxy. by rewrite Hx, Hy in Hxy.
Qed.
End SortUndefined.

(** C2 (amended): [sort compare a] moves the elements of [a] without losing
    or duplicating any, for every comparator: there is an arrangement [pi]
    of the indices of [a] such that the output holds [a[pi[p]]] at each
    position [p].  When [compare] is a consistent comparator on the
    elements of [a] that are not [undefined], the arrangement is stable:
    whenever [i < j] and [compare (a[i]) (a[j]) = 0], and [a[j]] is
    [undefined] if [a[i]] is, index [i] comes before index [j] in [pi]. *)
Theorem sort_stable_permutation {A : Type} `{NativeArray.IsUndefined A}
    (compare : A -> A -> Z) (a : list A) :
  (exists pi : list nat,
      pi ≡ₚ seq 0 (length a)
      /\ (forall (p i : nat), pi !! p = Some i ->
          NativeArray.sort compare a !! p = a !! i)
      /\ (NativeArray.consistent compare (NativeArray.defined a) ->
          forall (i j : nat) (x y : A),
          (i < j)%nat -> a !! i = Some x -> a !! j = Some y -> compare x y = 0 ->
          (NativeArray.is_undefined x = true -> NativeArray.is_undefined y = true) ->
          exists p q : nat, (p < q)%nat /\ pi !! p = Some i /\ pi !! q = Some j))
  /\ NativeArray.sort compare a ≡ₚ a.
Proof.
  split; [| apply Array_sort_Permutation].
  set (tagged := imap pair a).
  set (tagged_undefined :=
         (fun u : nat * A => NativeArray.is_undefined u.2)
           : NativeArray.IsUndefined (nat * A)).
  set (out := @NativeArray.Array_sort (nat * A) tagged_undefined
                (fun u v : nat * A => compare u.2 v.2) tagged).
  assert (Htagged : snd <$> tagged = a).
  { unfold tagged. rewrite fmap_imap.
    rewrite (imap_ext _ (fun _ x => x)); [| done].
    transitivity (id <$> a); [apply (imap_const id) | apply list_fmap_id]. }
  assert (Hperm : out ≡ₚ tagged) by apply Array_sort_Permutation.
  assert (Hvalues : NativeArray.sort compare a = snd <$> out).
  { unfold NativeArray.sort, out.
    rewrite (Array_sort_fmap snd (fun x y => compare x y) tagged); [| done].
    by rewrite Htagged. }
  exists (fst <$> out). split; [| split].
  - rewrite Hperm. unfold tagged. rewrite fmap_imap.
    rewrite (imap_ext _ (fun j _ => j)); [| done].
    by rewrite (imap_seq_0 a (fun j => j)), list_fmap_id.
  - intros p i Hp. rewrite Hvalues, list_lookup_fmap.
    apply list_lookup_fmap_Some in Hp as ([i' x] & Hi & Hout).
    simpl in Hi. assert (i' = i) as -> by done. clear Hi.
    rewrite Hout. simpl.
    assert (Hin : (i, x) ∈ tagged).
    { rewrite <- Hperm. by eapply list_elem_of_lookup_2. }
    apply elem_of_lookup_imap_1 in Hin as (i' & x' & Heq & Hx').
    injection Heq as -> ->. by rewrite Hx'.
  - intros Hc i j x y Hij Hi Hj Hcmp Hundefined.
    assert (Hsub : [(i, x); (j, y)] `sublist_of` tagged).
    { apply sublist_pair_lookup. exists i, j. unfold tagged.
      by rewrite !list_lookup_imap, Hi, Hj. }
    assert (Hc' : NativeArray.consistent (fun u v : nat * A => compare u.2 v.2)
                    (@NativeArray.defined (nat * A) tagged_undefined tagged)).
    { apply (consistent_fmap snd compare). unfold NativeArray.defined in *.
      rewrite <- Htagged in Hc. by rewrite list_filter_fmap in Hc. }
    apply (@Array_sort_keeps_order (nat * A) tagged_undefined
             (fun u v => compare u.2 v.2) tagged _ _ Hc') in Hsub; [| done | done].
    apply sublist_pair_lookup in Hsub as (p & q & Hpq & Hp & Hq).
    exists p, q. split; [done |]. fold out in Hp, Hq.
    by rewrite !list_lookup_fmap, Hp, Hq.
Qed.

(** C2 as the spec words it fails under a comparator that is not
    consistent: [compare 2 1 = 0], yet [1] is moved in front of [2], so no
    arrangement of the indices is stable.  It fails on [undefined] too,
    which goes last even where the comparator says equal. *)
Lemma sort_moves_equal_elements :
  (fun x y : Z => if x <? y then -1 else 0) 2 1 = 0
  /\ NativeArray.sort (fun x y : Z => if x <? y then -1 else 0) [2; 1] = [1; 2]
  /\ ~ (exists pi : list nat,
          pi ≡ₚ seq 0 (length [2; 1])
          /\ (forall (p i : nat), pi !! p = Some i ->
              NativeArray.sort (fun x y : Z => if x <? y then -1 else 0) [2; 1] !! p
                = [2; 1] !! i)
          /\ (forall (i j : nat) (x y : Z),
              (i < j)%nat -> [2; 1] !! i = Some x -> [2; 1] !! j = Some y ->
              (fun x y : Z => if x <? y then -1 else 0) x y = 0 ->
              exists p q : nat,
                (p < q)%nat /\ pi !! p = Some i /\ pi !! q = Some j))
  /\ (fun _ _ : option Z => 0) None (Some 5) = 0
  /\ NativeArray.sort (fun _ _ : option Z => 0) [None; Some 5] = [Some 5; None].
Proof.
  split; [reflexivity |]. split; [reflexivity |].
  split; [| split; reflexivity].
  intros (pi & _ & Hvalues & Hstable).
  destruct (Hstable 0%nat 1%nat 2 1 ltac:(lia) eq_refl eq_refl eq_refl)
    as (p & q & Hpq & Hp & Hq).
  pose proof (Hvalues p 0%nat Hp) as Hp'. pose proof (Hvalues q 1%nat Hq) as Hq'.
  change (NativeArray.sort _ [2; 1]) with [1; 2] in Hp', Hq'.
  destruct p as [| [| p]]; destruct q as [| [| q]]; simpl in Hp', Hq';
    try discriminate; lia.
Qed.

(** *** Input that is in order already *)

Lemma Sorted_lookup_adjacent {A : Type} (R : A -> A -> Prop) (l : list A) :
  (forall (i : nat) x y, l !! i = Some x -> l !! S i = Some y -> R x y) ->
  Sorted R l.
Proof.
  induction l as [| x l IH]; intros Hadj; [constructor |].
  constructor.
  - apply IH. intros i y z Hy Hz. by apply (Hadj (S i)).
  - destruct l as [| y l]; constructor. by apply (Hadj 0%nat).
Qed.

Section SortFixed.
Context {A : Type} `{NativeArray.IsUndefined A} (comparefn : A -> A -> Z).
Implicit Types (a work rest : list A).

Local Abbreviation le := (fun x y : A => comparefn x y <= 0).

(** In an array that is in order the first run is the whole array. *)
Lemma count_run_all rest (previousElement : A) :
  NativeArray.consistent comparefn (previousElement :: rest) ->
  Sorted le (previousElement :: rest) ->
  NativeArray.count_run comparefn false previousElement rest = length rest.
Proof.
  revert previousElement.
  induction rest as [| currentElement rest IH]; intros previousElement Hc Hsorted;
    [done |].
  apply Sorted_inv in Hsorted as [Hsorted Hhd]. apply HdRel_inv in Hhd.
  simpl. destruct (Z.ltb_spec (comparefn currentElement previousElement) 0) as [Hlt |].
  { pose proof (consistent_lt_gt comparefn _ currentElement previousElement Hc
                  ltac:(apply list_elem_of_further, list_elem_of_here)
                  ltac:(apply list_elem_of_here) Hlt). lia. }
  f_equal. apply IH; [| done].
  apply (consistent_subseteq comparefn _ _ Hc). intros x Hx.
  by apply list_elem_of_further.
Qed.

Lemma ArrayTimSort_fixed work :
  NativeArray.consistent comparefn work -> Sorted le work ->
  NativeArray.ArrayTimSort comparefn work = work.
Proof.
  intros Hc Hsorted. unfold NativeArray.ArrayTimSort.
  destruct (length work <? 2)%nat; [done |].
  destruct work as [| elementHigh [| elementLow rest]]; [done | done |].
  pose proof Hsorted as [Hsorted' Hhd]%Sorted_inv. apply HdRel_inv in Hhd.
  unfold NativeArray.CountAndMakeRun.
  destruct (Z.ltb_spec (comparefn elementLow elementHigh) 0) as [Hlt |].
  { pose proof (consistent_lt_gt comparefn _ elementLow elementHigh Hc
                  ltac:(apply list_elem_of_further, list_elem_of_here)
                  ltac:(apply list_elem_of_here) Hlt). lia. }
  cbv zeta. rewrite count_run_all; [| | done].
  - unfold NativeArray.BinaryInsertionSort.
    change (2 + length rest)%nat with (length (elementHigh :: elementLow :: rest)).
    by rewrite firstn_all, drop_all.
  - apply (consistent_subseteq comparefn _ _ Hc). intros x Hx.
    by apply list_elem_of_further.
Qed.

(** An array is in order when its [undefined] elements stand last and
    every other element compares not greater than its right neighbour. *)
Local Abbreviation in_order := (fun x y : A =>
  (NativeArray.is_undefined x = true -> NativeArray.is_undefined y = true)
  /\ (NativeArray.is_undefined y = false -> comparefn x y <= 0)).

Lemma Sorted_undefined_last (x : A) a :
  Sorted in_order (x :: a) -> NativeArray.is_undefined x = true ->
  Forall (fun y => NativeArray.is_undefined y = true) a.
Proof.
  revert x. induction a as [| y a IH]; intros x Hsorted Hx; [constructor |].
  apply Sorted_inv in Hsorted as [Hsorted Hhd]. apply HdRel_inv in Hhd as [Hy _].
  constructor; [by apply Hy |]. apply (IH y); [done | by apply Hy].
Qed.

Lemma Sorted_in_order_split a :
  Sorted in_order a ->
  NativeArray.defined a ++ List.filter NativeArray.is_undefined a = a
  /\ Sorted le (NativeArray.defined a).
Proof.
  induction a as [| x a IH]; intros Hsorted; [by split; [| constructor] |].
  pose proof Hsorted as [Hsorted' Hhd]%Sorted_inv.
  destruct (IH Hsorted') as [Hsplit Hdefined].
  unfold NativeArray.defined in *. simpl.
  destruct (NativeArray.is_undefined x) eqn:Hx; simpl.
  - pose proof (Sorted_undefined_last x a Hsorted Hx) as Hall.
    assert (Hnone : List.filter (fun x => negb (NativeArray.is_undefined x)) a = []).
    { clear -Hall. induction Hall as [| y a Hy _ IH]; simpl; [done |].
      by rewrite Hy. }
    rewrite Hnone in *. simpl in *. split; [by rewrite Hsplit | constructor].
  - split; [by rewrite Hsplit |]. constructor; [done |].
    destruct (List.filter (fun x => negb (NativeArray.is_undefined x)) a)
      as [| y d] eqn:Hd; constructor.
    assert (Hy : NativeArray.is_undefined y = false).
    { assert (Hin : y ∈ List.filter (fun x => negb (NativeArray.is_undefined x)) a)
        by (rewrite Hd; apply list_elem_of_here).
      apply elem_of_list_filter_bool in Hin as [_ Hin]. by apply negb_true_iff. }
    simpl in Hsplit. rewrite <- Hsplit in Hhd. apply HdRel_inv in Hhd as [_ Hle].
    by apply Hle.
Qed.

Lemma Array_sort_fixed a :
  NativeArray.consistent comparefn (NativeArray.defined a) ->
  Sorted in_order a ->
  NativeArray.Array_sort comparefn a = a.
Proof.
  intros Hc Hsorted. destruct (Sorted_in_order_split a Hsorted) as [Hsplit Hdefined].
  unfold NativeArray.Array_sort. fold (NativeArray.defined a).
  by rewrite ArrayTimSort_fixed.
Qed.

(** The output of [Array_sort] is in order. *)
Lemma Array_sort_in_order a :
  NativeArray.consistent comparefn (NativeArray.defined a) ->
  Sorted in_order (NativeArray.Array_sort comparefn a).
Proof.
  intros Hc. apply Sorted_lookup_adjacent. intros i x y Hx Hy. split.
  - intros Hxu. destruct (NativeArray.is_undefined y) eqn:Hyu; [done |].
    destruct (Array_sort_ordered comparefn a Hc i (S i) x y
                (Nat.lt_succ_diag_r i) Hx Hy Hyu) as [Hxd _]. congruence.
  - intros Hyu.
    by destruct (Array_sort_ordered comparefn a Hc i (S i) x y
                   (Nat.lt_succ_diag_r i) Hx Hy Hyu).
Qed.

Lemma defined_Array_sort a :
  NativeArray.defined (NativeArray.Array_sort comparefn a) ≡ₚ NativeArray.defined a.
Proof.
  unfold NativeArray.defined.
  induction (Array_sort_Permutation comparefn a)
    as [| x l1 l2 _ IH | x y l | l1 l2 l3 _ IH1 _ IH2]; simpl.
  - done.
  - destruct (negb _); by rewrite IH.
  - destruct (negb (NativeArray.is_undefined x)), (negb (NativeArray.is_undefined y));
      try done. apply perm_swap.
  - by rewrite IH1.
Qed.
End SortFixed.
(** ** The operations on references *)

Section HeapRuns.
Context {V : Type} `{Inhabited V}.
Implicit Types (s : Heap.store V) (a result : Heap.ref).

Lemma prefix_alter_new (g : list V -> list V) s0 s result :
  s0 `prefix_of` s -> (length s0 <= result)%nat ->
  s0 `prefix_of` alter g result s.
Proof.
  intros [k ->] Hge. rewrite alter_app_r_alt by done. by apply prefix_app_r.
Qed.

Lemma alter_last (g : list V -> list V) s (elems : list V) :
  alter g (length s) (s ++ [elems]) = s ++ [g elems].
Proof. by rewrite alter_app_r_alt, Nat.sub_diag by done. Qed.

(** *** The loops, as one write to [result] *)

Lemma heap_range_up_run (num : Z -> V) result upper :
  forall (n : nat) lp s,
    n = Z.to_nat (upper - lp) ->
    Heap.range_up num result lp upper s =
      (tt, alter (fun acc =>
                    acc ++ ((fun i : nat => num (lp + Z.of_nat i)) <$> seq 0 n))
             result s).
Proof.
  induction n as [| n IH]; intros lp s Hn;
    rewrite Heap.range_up_equation_1;
    destruct (decide (lp < upper)) as [Hlt | Hge]; try lia; simpl.
  - f_equal. symmetry. apply list_alter_id. intros acc. apply app_nil_r.
  - rewrite IH by lia. f_equal. unfold Heap.push. simpl.
    rewrite list_alter_alter_eq. apply list_alter_ext; [| done].
    intros acc _. simpl. rewrite <- app_assoc. simpl. rewrite Z.add_0_r.
    do 2 f_equal. rewrite <- fmap_S_seq, <- list_fmap_compose.
    apply list_fmap_ext. intros _ i _. simpl. f_equal. lia.
Qed.

Lemma heap_range_down_run (num : Z -> V) result upper :
  forall (n : nat) lp s,
    n = Z.to_nat (lp - upper) ->
    Heap.range_down num result lp upper s =
      (tt, alter (fun acc =>
                    acc ++ ((fun i : nat => num (lp - Z.of_nat i)) <$> seq 0 n))
             result s).
Proof.
  induction n as [| n IH]; intros lp s Hn;
    rewrite Heap.range_down_equation_1;
    destruct (decide (lp > upper)) as [Hlt | Hge]; try lia; simpl.
  - f_equal. symmetry. apply list_alter_id. intros acc. apply app_nil_r.
  - rewrite IH by lia. f_equal. unfold Heap.push. simpl.
    rewrite list_alter_alter_eq. apply list_alter_ext; [| done].
    intros acc _. simpl. rewrite <- app_assoc. simpl. rewrite Z.sub_0_r.
    do 2 f_equal. rewrite <- fmap_S_seq, <- list_fmap_compose.
    apply list_fmap_ext. intros _ i _. simpl. f_equal. lia.
Qed.

(** [range] builds one new array and writes to nothing else. *)
Lemma heap_range_run (num : Z -> V) (lower upper : Z) s :
  exists elems : list V,
    Heap.range num lower upper s = (length s, s ++ [elems]).
Proof.
  unfold Heap.range.
  destruct (decide (lower < upper)); unfold mbind, Heap.M_bind, mret, Heap.M_ret,
    Heap.new_array; simpl.
  - rewrite (heap_range_up_run num (length s) upper
               (Z.to_nat (upper - lower)) lower) by done.
    rewrite alter_last. by eexists.
  - rewrite (heap_range_down_run num (length s) upper
               (Z.to_nat (lower - upper)) lower) by done.
    rewrite alter_last. by eexists.
Qed.

(** The [zipWith] loop writes to [result] only, whatever the three
    references are. *)
Lemma heap_zipWith_loop_writes (f : V -> V -> V) (a1 a2 : Heap.ref) result upper :
  forall (n lp : nat) s,
    n = (upper - lp)%nat ->
    exists g : list V -> list V,
      Heap.zipWith_loop f a1 a2 result upper lp s = (tt, alter g result s).
Proof.
  induction n as [| n IH]; intros lp s Hn;
    rewrite Heap.zipWith_loop_equation_1;
    destruct (decide (lp < upper)%nat) as [Hlt | Hge]; try lia; simpl.
  - exists (fun acc => acc). f_equal. symmetry. by apply list_alter_id.
  - destruct (IH (S lp)
                (alter (fun elems => elems ++ [f ((s !!! a1) !!! lp) ((s !!! a2) !!! lp)])
                   result s) ltac:(lia)) as [g Hg].
    rewrite Hg, list_alter_alter_eq. by eexists.
Qed.

(** When [result] is neither [a1] nor [a2], the loop computes what the
    loop of [NativeArray.zipWith] computes on their elements. *)
Lemma heap_zipWith_loop_run (f : V -> V -> V) (a1 a2 : Heap.ref) result upper :
  a1 <> result -> a2 <> result ->
  forall (n lp : nat) s,
    n = (upper - lp)%nat ->
    Heap.zipWith_loop f a1 a2 result upper lp s =
      (tt, alter (NativeArray.zipWith_loop f (s !!! a1) (s !!! a2) upper lp)
             result s).
Proof.
  intros Hne1 Hne2.
  induction n as [| n IH]; intros lp s Hn;
    rewrite Heap.zipWith_loop_equation_1;
    destruct (decide (lp < upper)%nat) as [Hlt | Hge]; try lia; simpl.
  - f_equal. symmetry. apply list_alter_id. intros acc.
    by rewrite zipWith_loop_exit by lia.
  - rewrite IH by lia.
    rewrite !list_lookup_total_alter_ne by done.
    rewrite list_alter_alter_eq. f_equal. apply list_alter_ext; [| done].
    intros acc _. simpl. by rewrite (zipWith_loop_step f _ _ upper lp) by done.
Qed.

Lemma heap_zipWith_run (f : V -> V -> V) (a1 a2 : Heap.ref) s :
  (a1 < length s)%nat -> (a2 < length s)%nat ->
  Heap.zipWith f a1 a2 s =
    (length s, s ++ [NativeArray.zipWith f (s !!! a1) (s !!! a2)]).
Proof.
  intros Ha1 Ha2.
  unfold Heap.zipWith, mbind, Heap.M_bind, mret, Heap.M_ret, Heap.new_array,
    Heap.elements. simpl.
  rewrite !lookup_total_app_l by done.
  rewrite (heap_zipWith_loop_run f a1 a2 (length s) _ ltac:(lia) ltac:(lia)
             (Nat.min (length (s !!! a1)) (length (s !!! a2)) - 0) 0%nat) by done.
  rewrite !lookup_total_app_l by done.
  by rewrite alter_last.
Qed.

Lemma heap_sort_run `{NativeArray.IsUndefined V} (compare : V -> V -> Z) a s :
  Heap.sort compare a s = (length s, s ++ [NativeArray.sort compare (s !!! a)]).
Proof.
  unfold Heap.sort, mbind, Heap.M_bind, Heap.new_array, Heap.elements,
    Heap.Array_sort. simpl.
  by rewrite alter_last.
Qed.
End HeapRuns.

Section HeapFrame.
Context {V : Type} `{Inhabited V}.
Implicit Types (s : Heap.store V) (a : Heap.ref).

Lemma preserves_of_prefix {X : Type} (m : Heap.M V X) :
  (forall s, s `prefix_of` (m s).2) -> Heap.preserves m.
Proof. intros Hm s a elems Ha. by eapply prefix_lookup_Some. Qed.

Lemma returns_new_of_run (m : Heap.M V Heap.ref) :
  (forall s, exists elems, m s = (length s, s ++ [elems])) -> Heap.returns_new m.
Proof.
  intros Hm s. destruct (Hm s) as [elems ->]. simpl. split.
  - by apply lookup_ge_None_2.
  - exists elems. by apply list_lookup_middle.
Qed.

Lemma preserves_of_run (m : Heap.M V Heap.ref) :
  (forall s, exists elems, m s = (length s, s ++ [elems])) -> Heap.preserves m.
Proof.
  intros Hm. apply preserves_of_prefix. intros s.
  destruct (Hm s) as [elems ->]. by apply prefix_app_r.
Qed.

Lemma heap_zipWith_store (f : V -> V -> V) (a1 a2 : Heap.ref) s :
  exists elems, Heap.zipWith f a1 a2 s = (length s, s ++ [elems]).
Proof.
  unfold Heap.zipWith, mbind, Heap.M_bind, mret, Heap.M_ret, Heap.new_array,
    Heap.elements. simpl.
  set (upper := Nat.min _ _).
  destruct (heap_zipWith_loop_writes f a1 a2 (length s) upper
              (upper - 0) 0%nat (s ++ [[]]) eq_refl) as [g ->].
  rewrite alter_last. by eexists.
Qed.

Lemma heap_reduce_prefix {B : Type} a (fNil : unit -> B) (fCons : V -> Heap.ref -> B) s :
  s `prefix_of` (Heap.reduce a fNil fCons s).2.
Proof.
  unfold Heap.reduce, mbind, Heap.M_bind, mret, Heap.M_ret, Heap.new_array,
    Heap.elements. simpl.
  destruct (length (s !!! a) =? 0)%nat; simpl; [done |]. by apply prefix_app_r.
Qed.
End HeapFrame.

Ltac heap_run :=
  intros; eexists;
  unfold Heap.append, Heap.prepend, Heap.slice, Heap.concat, Heap.map, Heap.filter,
    mbind, Heap.M_bind, Heap.new_array, Heap.elements;
  simpl; reflexivity.

(** C6: no operation writes to an array it is given.  Run from any store,
    each of the fourteen operations leaves every array of that store with
    the elements it had; and each operation that returns an array returns a
    new one, [sort] in particular, which orders a copy. *)
Theorem operations_preserve_their_inputs {V B : Type} `{Inhabited V}
    `{NativeArray.IsUndefined V} :
  (forall a, Heap.preserves (V:=V) (Heap.length a))
  /\ (forall a (f : V -> Maybe B), Heap.preserves (Heap.findMap a f))
  /\ (forall a (item : V),
      Heap.preserves (Heap.append a item) /\ Heap.returns_new (Heap.append a item))
  /\ (forall (item : V) a,
      Heap.preserves (Heap.prepend item a) /\ Heap.returns_new (Heap.prepend item a))
  /\ (forall a (start end_ : Z),
      Heap.preserves (V:=V) (Heap.slice a start end_)
      /\ Heap.returns_new (V:=V) (Heap.slice a start end_))
  /\ (forall a (index : Z), Heap.preserves (V:=V) (Heap.at_ a index))
  /\ (forall (num : Z -> V) (lower upper : Z),
      Heap.preserves (Heap.range num lower upper)
      /\ Heap.returns_new (Heap.range num lower upper))
  /\ (forall a1 a2,
      Heap.preserves (V:=V) (Heap.concat a1 a2)
      /\ Heap.returns_new (V:=V) (Heap.concat a1 a2))
  /\ (forall a (fNil : unit -> B) (fCons : V -> Heap.ref -> B),
      Heap.preserves (Heap.reduce a fNil fCons))
  /\ (forall (f : V -> V -> V) a1 a2,
      Heap.preserves (Heap.zipWith f a1 a2) /\ Heap.returns_new (Heap.zipWith f a1 a2))
  /\ (forall (f : V -> V) a,
      Heap.preserves (Heap.map f a) /\ Heap.returns_new (Heap.map f a))
  /\ (forall (toString : V -> string) a (sep : string),
      Heap.preserves (Heap.join toString a sep))
  /\ (forall (predicate : V -> bool) a,
      Heap.preserves (Heap.filter predicate a)
      /\ Heap.returns_new (Heap.filter predicate a))
  /\ (forall (compare : V -> V -> Z) a,
      Heap.preserves (Heap.sort compare a) /\ Heap.returns_new (Heap.sort compare a)).
Proof.
  repeat match goal with
         | |- _ /\ _ => split
         | |- forall _, _ => intro
         end.
  - by apply preserves_of_prefix.
  - by apply preserves_of_prefix.
  - apply preserves_of_run. heap_run.
  - apply returns_new_of_run. heap_run.
  - apply preserves_of_run. heap_run.
  - apply returns_new_of_run. heap_run.
  - apply preserves_of_run. heap_run.
  - apply returns_new_of_run. heap_run.
  - by apply preserves_of_prefix.
  - apply preserves_of_run. intros s. apply heap_range_run.
  - apply returns_new_of_run. intros s. apply heap_range_run.
  - apply preserves_of_run. heap_run.
  - apply returns_new_of_run. heap_run.
  - apply preserves_of_prefix. apply heap_reduce_prefix.
  - apply preserves_of_run. apply heap_zipWith_store.
  - apply returns_new_of_run. apply heap_zipWith_store.
  - apply preserves_of_run. heap_run.
  - apply returns_new_of_run. heap_run.
  - by apply preserves_of_prefix.
  - apply preserves_of_run. heap_run.
  - apply returns_new_of_run. heap_run.
  - apply preserves_of_run. intros s. eexists. apply heap_sort_run.
  - apply returns_new_of_run. intros s. eexists. apply heap_sort_run.
Qed.

(** The stability example of the specification: two records with the same
    key keep their order. *)
Example sort_equal_keys :
  NativeArray.sort (fun u v : Z * string => fst u - fst v)
    [(1, "a"%string); (1, "b"%string)] = [(1, "a"%string); (1, "b"%string)].
Proof. reflexivity. Qed.

(** Comparators that are not consistent get a rearrangement of the input,
    in an order of the algorithm's making: under the constant [-1] the
    whole array counts as a descending run and is reversed, at each call;
    under [x > y ? 1 : 0] it counts as an ascending run and stays. *)
Example sort_constant_comparator :
  NativeArray.sort (fun _ _ : Z => -1) [1; 2; 3] = [3; 2; 1]
  /\ NativeArray.sort (fun _ _ : Z => -1) [3; 2; 1] = [1; 2; 3].
Proof. split; reflexivity. Qed.

Example sort_greater_only_comparator :
  NativeArray.sort (fun x y : Z => if x >? y then 1 else 0) [3; 1; 2] = [3; 1; 2].
Proof. reflexivity. Qed.

(** [undefined] goes last, and the comparator has no say in it. *)
Example sort_undefined_last :
  NativeArray.sort (fun _ _ : option Z => 0) [None; Some 5] = [Some 5; None].
Proof. reflexivity. Qed.

(** On a store with the one array [[2; 1]]: [sort] leaves it as it is and
    returns the ordered copy; [zipWith] of the array with itself reads it
    and writes to the new array only. *)
Example heap_sort_example :
  Heap.sort (fun x y : Z => x - y) 0%nat [[2; 1]] = (1%nat, [[2; 1]; [1; 2]]).
Proof. reflexivity. Qed.

Example heap_zipWith_example :
  Heap.zipWith Z.mul 0%nat 0%nat [[2; 1]] = (1%nat, [[2; 1]; [4; 1]]).
Proof. reflexivity. Qed.

(** Ordering an array in place, without the copy, does write to it. *)
Example Array_sort_in_place_writes :
  ~ Heap.preserves (Heap.Array_sort (fun x y : Z => x - y) 0%nat).
Proof. intros Hp. by specialize (Hp [[2; 1]] 0%nat [2; 1] eq_refl). Qed.

(** ** The statements above at concrete arrays *)

Lemma findMap_first_present_witness :
  NativeArray.findMap [1; 2; 3; 4]
    (fun x => if 2 <? x then Just (x * 10) else Nothing)
  = (Just 30, [0; 1; 2]%nat)
  /\ NativeArray.findMap [1; 2] (fun x => if 2 <? x then Just (x * 10) else Nothing)
     = (Nothing, [0; 1]%nat).
Proof.
  split.
  - apply (proj1 (findMap_first_present [1; 2; 3; 4]
                    (fun x => if 2 <? x then Just (x * 10) else Nothing)) 2%nat 3 30).
    + reflexivity.
    + reflexivity.
    + intros [| [| j]] y Hj Hy; [| | lia]; injection Hy as <-; reflexivity.
  - apply (proj1 (proj2 (findMap_first_present [1; 2]
                    (fun x => if 2 <? x then Just (x * 10) else Nothing)))).
    intros x Hx. apply list_elem_of_In in Hx.
    destruct Hx as [<- | [<- | []]]; reflexivity.
Defined.

Lemma sort_stable_permutation_witness :
  let compare := fun u v : Z * Z => fst u - fst v in
  let a := [(1, 10); (0, 5); (1, 20)] in
  exists pi : list nat,
    pi ≡ₚ [0; 1; 2]%nat
    /\ (exists p q : nat, (p < q)%nat /\ pi !! p = Some 0%nat /\ pi !! q = Some 2%nat)
    /\ NativeArray.sort compare a ≡ₚ a.
Proof.
  intros compare a.
  destruct (sort_stable_permutation compare a) as [(pi & Hpi & _ & Hstable) Hperm].
  exists pi. split; [exact Hpi |]. split; [| exact Hperm].
  apply (Hstable ltac:(unfold NativeArray.consistent, compare; repeat split;
                         intros; lia)
           0%nat 2%nat (1, 10) (1, 20));
    [lia | reflexivity | reflexivity | reflexivity |].
  intros Hundefined. vm_compute in Hundefined. discriminate.
Defined.

Lemma at_present_iff_in_range_witness :
  (exists x, [1; 2; 3; 4] !! 3%nat = Some x /\ NativeArray.at_ [1; 2; 3; 4] 3 = Just x)
  /\ NativeArray.at_ [1; 2; 3; 4] 9 = Nothing
  /\ NativeArray.at_ [1; 2; 3; 4] (-2) = Nothing.
Proof.
  split; [| split].
  - apply (proj1 (at_present_iff_in_range [1; 2; 3; 4] 3)). simpl. lia.
  - apply (proj1 (proj2 (at_present_iff_in_range [1; 2; 3; 4] 9))). simpl. lia.
  - apply (proj2 (proj2 (at_present_iff_in_range [1; 2; 3; 4] (-2)))). lia.
Defined.


Lemma slice_never_raises_witness :
  NativeArray.slice [1; 2; 3; 4] (-3) 3 = NativeArray.slice [1; 2; 3; 4] 1 3
  /\ NativeArray.slice [1; 2; 3; 4] 1 (-1) = NativeArray.slice [1; 2; 3; 4] 1 3
  /\ NativeArray.slice [1; 2; 3; 4] (-1) 4 = [4]
  /\ NativeArray.slice [1; 2; 3; 4] 3 (-1) = []
  /\ NativeArray.slice [1; 2; 3; 4] 10 12 = []
  /\ NativeArray.slice [1; 2; 3; 4] 0 (-7) = [].
Proof.
  split; [| split; [| split; [| split; [| split]]]].
  - apply (proj1 (proj2 (slice_never_raises [1; 2; 3; 4] (-3) 3))). simpl. lia.
  - apply (proj1 (proj2 (proj2 (slice_never_raises [1; 2; 3; 4] 1 (-1))))). simpl. lia.
  - apply (proj1 (proj2 (proj2 (proj2 (slice_never_raises [1; 2; 3; 4] 0 0))))).
    reflexivity.
  - apply (proj1 (proj2 (proj2 (proj2 (proj2
             (slice_never_raises [1; 2; 3; 4] 3 (-1))))))).
    vm_compute. discriminate.
  - apply (proj1 (proj2 (proj2 (proj2 (proj2 (proj2
             (slice_never_raises [1; 2; 3; 4] 10 12))))))).
    simpl. lia.
  - apply (proj2 (proj2 (proj2 (proj2 (proj2 (proj2
             (slice_never_raises [1; 2; 3; 4] 0 (-7)))))))).
    simpl. lia.
Defined.

Lemma slice_clamps_witness :
  NativeArray.slice [1; 2; 3; 4] (-9) 2 = NativeArray.slice [1; 2; 3; 4] 0 2
  /\ NativeArray.slice [1; 2; 3; 4] 1 100 = NativeArray.slice [1; 2; 3; 4] 1 4.
Proof.
  split.
  - apply (proj1 (slice_clamps [1; 2; 3; 4] (-9) 2)). simpl. lia.
  - apply (proj2 (slice_clamps [1; 2; 3; 4] 1 100)). simpl. lia.
Defined.

Lemma zipWith_min_length_witness :
  exists x y, [1; 2; 3] !! 2%nat = Some x /\ [4; 5; 6; 7] !! 2%nat = Some y
              /\ NativeArray.zipWith Z.mul [1; 2; 3] [4; 5; 6; 7] !! 2%nat = Some (x * y).
Proof.
  apply (proj1 (proj2 (zipWith_min_length Z.mul [1; 2; 3] [4; 5; 6; 7])) 2%nat).
  simpl. lia.
Defined.

Lemma reduce_head_tail_witness :
  NativeArray.reduce [1; 2; 3] (fun _ => None) (fun h t => Some (h, t))
  = Some ([1; 2; 3] !!! 0%nat, drop 1 [1; 2; 3]).
Proof.
  apply (proj2 (proj2 (reduce_head_tail (fun _ => None) (fun h t => Some (h, t))))).
  discriminate.
Defined.


(** * Further properties of the operations *)

(** ** Reading by index after building an array *)

Section AtFacts.
Context {A : Type} `{Inhabited A}.
Implicit Types (a : list A) (index : Z).

(** [at] is the partial lookup of the list, on the integers. *)
Lemma at_lookup a index :
  NativeArray.at_ a index =
    if index <? 0 then Nothing
    else match a !! Z.to_nat index with
         | Some x => Just x
         | None => Nothing
         end.
Proof.
  unfold NativeArray.at_.
  destruct (Z.ltb_spec index 0); simpl; [done |].
  destruct (Z.geb_spec index (Z.of_nat (length a))).
  - by rewrite lookup_ge_None_2 by lia.
  - destruct (lookup_lt_is_Some_2 a (Z.to_nat index) ltac:(lia)) as [x Hx].
    by rewrite Hx, (list_lookup_total_correct _ _ _ Hx).
Qed.

(** X1: [append a item] is one longer than [a], holds [item] at index
    [length a], and reads like [a] at every index below it. *)
Theorem append_adds_last a (item : A) :
  NativeArray.length (NativeArray.append a item) = NativeArray.length a + 1
  /\ NativeArray.at_ (NativeArray.append a item) (NativeArray.length a) = Just item
  /\ (forall index, index < NativeArray.length a ->
      NativeArray.at_ (NativeArray.append a item) index = NativeArray.at_ a index).
Proof.
  unfold NativeArray.length, NativeArray.append. split; [| split].
  - rewrite length_app. simpl. lia.
  - rewrite at_lookup. destruct (Z.ltb_spec (Z.of_nat (length a)) 0); [lia |].
    by rewrite Nat2Z.id, list_lookup_middle.
  - intros index Hlt. rewrite !at_lookup.
    destruct (Z.ltb_spec index 0); [done |].
    by rewrite lookup_app_l by lia.
Qed.

(** X2: [prepend item a] is one longer than [a], holds [item] at index 0,
    and holds at index [index + 1] what [a] holds at [index]. *)
Theorem prepend_shifts_by_one (item : A) a :
  NativeArray.length (NativeArray.prepend item a) = NativeArray.length a + 1
  /\ NativeArray.at_ (NativeArray.prepend item a) 0 = Just item
  /\ (forall index, 0 <= index ->
      NativeArray.at_ (NativeArray.prepend item a) (index + 1) = NativeArray.at_ a index).
Proof.
  unfold NativeArray.length, NativeArray.prepend. split; [| split].
  - simpl length. lia.
  - reflexivity.
  - intros index Hge. rewrite !at_lookup.
    destruct (Z.ltb_spec (index + 1) 0), (Z.ltb_spec index 0); try lia.
    by replace (Z.to_nat (index + 1)) with (S (Z.to_nat index)) by lia.
Qed.

(** X3: [reduce] undoes [prepend]: it hands [fCons] the item and the array
    that were put together; and rebuilding with [prepend] gives the array
    back. *)
Theorem reduce_undoes_prepend (item : A) a :
  (forall (B : Type) (fNil : unit -> B) (fCons : A -> list A -> B),
      NativeArray.reduce (NativeArray.prepend item a) fNil fCons = fCons item a)
  /\ NativeArray.reduce a (fun _ => []) (fun h t => NativeArray.prepend h t) = a.
Proof.
  split.
  - intros B fNil fCons. unfold NativeArray.reduce, NativeArray.prepend.
    simpl length. simpl Nat.eqb. cbv iota. by rewrite Array_slice_from_1.
  - destruct a as [| h t]; [reflexivity |].
    unfold NativeArray.reduce, NativeArray.prepend.
    simpl length. simpl Nat.eqb. cbv iota. by rewrite Array_slice_from_1.
Qed.
End AtFacts.

(** ** map *)

Section MapFacts.
Context {A B : Type} `{Inhabited A} `{Inhabited B}.
Implicit Types (f : A -> B) (a : list A).

(** X4: [map f a] has the length of [a], and reading it at any index gives
    [f] of what [a] holds there, [Nothing] where [a] has nothing. *)
Theorem map_length_and_at f a :
  NativeArray.length (NativeArray.map f a) = NativeArray.length a
  /\ (forall index : Z,
      NativeArray.at_ (NativeArray.map f a) index =
        match NativeArray.at_ a index with
        | Just x => Just (f x)
        | Nothing => Nothing
        end).
Proof.
  unfold NativeArray.length, NativeArray.map. split.
  - by rewrite length_fmap.
  - intros index. rewrite !at_lookup.
    destruct (Z.ltb_spec index 0); [done |].
    rewrite list_lookup_fmap. by destruct (a !! Z.to_nat index).
Qed.

(** X5: [map] goes through the building operations: mapping a
    concatenation, an [append] or a [prepend] is building from the mapped
    parts, and two maps in a row are one map with the composed function. *)
Theorem map_distributes f (a1 a2 : list A) (item : A) :
  NativeArray.map f (NativeArray.concat a1 a2) =
    NativeArray.concat (NativeArray.map f a1) (NativeArray.map f a2)
  /\ NativeArray.map f (NativeArray.append a1 item) =
       NativeArray.append (NativeArray.map f a1) (f item)
  /\ NativeArray.map f (NativeArray.prepend item a1) =
       NativeArray.prepend (f item) (NativeArray.map f a1)
  /\ (forall (C : Type) (g : B -> C),
      NativeArray.map g (NativeArray.map f a1) = NativeArray.map (fun x => g (f x)) a1).
Proof.
  unfold NativeArray.map, NativeArray.concat, NativeArray.append, NativeArray.prepend.
  split; [apply fmap_app |]. split; [by rewrite fmap_app |]. split; [reflexivity |].
  intros C g. by rewrite <- list_fmap_compose.
Qed.
End MapFacts.

(** ** filter *)

Section FilterFacts.
Context {A : Type}.
Implicit Types (predicate : A -> bool) (a : list A).

Lemma filter_sublist predicate a :
  NativeArray.filter predicate a `sublist_of` a.
Proof.
  unfold NativeArray.filter. induction a as [| x a IH]; simpl; [done |].
  destruct (predicate x); [by apply sublist_skip | by apply sublist_cons].
Qed.

(** X6: [filter predicate a] holds exactly the elements of [a] that satisfy
    the predicate, in the order they have in [a]; and it is [a] itself
    exactly when every element satisfies the predicate. *)
Theorem filter_keeps_exactly predicate a :
  (forall x, x ∈ NativeArray.filter predicate a <-> x ∈ a /\ predicate x = true)
  /\ NativeArray.filter predicate a `sublist_of` a
  /\ (NativeArray.filter predicate a = a <-> forall x, x ∈ a -> predicate x = true).
Proof.
  assert (Hmem : forall x, x ∈ NativeArray.filter predicate a
                           <-> x ∈ a /\ predicate x = true).
  { intros x. unfold NativeArray.filter.
    rewrite !list_elem_of_In. apply filter_In. }
  split; [exact Hmem |]. split; [apply filter_sublist |]. split.
  - intros Heq x Hx. rewrite <- Heq in Hx. by apply Hmem in Hx as [_ ?].
  - unfold NativeArray.filter. clear Hmem.
    induction a as [| y a IH]; intros Hall; simpl; [done |].
    rewrite (Hall y) by apply list_elem_of_here. f_equal.
    apply IH. intros x Hx. apply Hall. by apply list_elem_of_further.
Qed.

(** X7: [filter] goes through [concat]; two filters in a row are one filter
    with both predicates; and filtering a mapped array is mapping the array
    filtered by the predicate taken after the function. *)
Theorem filter_distributes predicate (a1 a2 : list A) :
  NativeArray.filter predicate (NativeArray.concat a1 a2) =
    NativeArray.concat (NativeArray.filter predicate a1)
      (NativeArray.filter predicate a2)
  /\ (forall q : A -> bool,
      NativeArray.filter predicate (NativeArray.filter q a1) =
        NativeArray.filter (fun x => q x && predicate x) a1)
  /\ (forall (T : Type) (f : T -> A) (a : list T),
      NativeArray.filter predicate (NativeArray.map f a) =
        NativeArray.map f (NativeArray.filter (fun x => predicate (f x)) a)).
Proof.
  unfold NativeArray.filter, NativeArray.concat, NativeArray.map.
  split; [apply List.filter_app |]. split.
  - intros q. induction a1 as [| x a1 IH]; simpl; [done |].
    destruct (q x); simpl; [| done].
    destruct (predicate x); by rewrite IH.
  - intros T f a. induction a as [| x a IH]; simpl; [done |].
    destruct (predicate (f x)); simpl; [f_equal |]; apply IH.
Qed.
End FilterFacts.

(** ** join *)

Section JoinFacts.
Context {A : Type}.
Implicit Types (toString : A -> string) (a : list A) (sep : string).

Lemma string_app_assoc (s1 s2 s3 : string) :
  ((s1 ++ s2) ++ s3)%string = (s1 ++ s2 ++ s3)%string.
Proof.
  induction s1 as [| c s1 IH]; [reflexivity |].
  change (String c ((s1 ++ s2) ++ s3)%string = String c (s1 ++ s2 ++ s3)%string).
  by rewrite IH.
Qed.

Lemma Array_join_cons toString (x : A) a sep :
  a <> [] ->
  NativeArray.Array_join toString (x :: a) sep =
    (toString x ++ sep ++ NativeArray.Array_join toString a sep)%string.
Proof. by destruct a. Qed.

(** X8: joining the concatenation of two non-empty arrays gives the two
    joined strings with one separator between them. *)
Theorem join_concat toString (a1 a2 : list A) sep :
  a1 <> [] -> a2 <> [] ->
  NativeArray.join toString (NativeArray.concat a1 a2) sep =
    (NativeArray.join toString a1 sep ++ sep ++ NativeArray.join toString a2 sep)%string.
Proof.
  unfold NativeArray.join, NativeArray.concat. intros Hne1 Hne2.
  induction a1 as [| x a1 IH]; [done |].
  destruct a1 as [| y a1].
  - simpl app. by rewrite Array_join_cons.
  - change ((x :: y :: a1) ++ a2) with (x :: ((y :: a1) ++ a2)).
    rewrite !Array_join_cons by done. rewrite IH by done.
    by rewrite !string_app_assoc.
Qed.

(** X9: joining a mapped array is joining the array with the function put
    before the conversion to a string. *)
Theorem join_map toString (T : Type) (f : T -> A) (a : list T) sep :
  NativeArray.join toString (NativeArray.map f a) sep =
    NativeArray.join (fun x => toString (f x)) a sep.
Proof.
  unfold NativeArray.join, NativeArray.map.
  induction a as [| x a IH]; [done |].
  destruct a as [| y a]; [done |].
  change (f <$> x :: y :: a) with (f x :: (f <$> y :: a)).
  rewrite Array_join_cons by done. by rewrite IH.
Qed.
End JoinFacts.

Lemma join_concat_witness :
  NativeArray.join (pretty : Z -> string) (NativeArray.concat [1; 2] [3]) ", "
  = "1, 2, 3"%string.
Proof.
  rewrite (join_concat (pretty : Z -> string) [1; 2] [3] ", "); [| done | done].
  reflexivity.
Defined.

(** ** slice *)

Section SliceFacts.
Context {A : Type} `{Inhabited A}.
Implicit Types (a : list A) (start : Z).

(** X10: for [0 <= start <= end <= length a] the slice has [end - start]
    elements, and its element at index [i] is the element of [a] at index
    [start + i]. *)
Theorem slice_in_bounds a start (end_ : Z) :
  0 <= start <= end_ -> end_ <= NativeArray.length a ->
  NativeArray.length (NativeArray.slice a start end_) = end_ - start
  /\ (forall i : Z, 0 <= i < end_ - start ->
      NativeArray.at_ (NativeArray.slice a start end_) i =
        NativeArray.at_ a (start + i)).
Proof.
  unfold NativeArray.length. intros Hstart Hend.
  rewrite slice_segment.
  rewrite !relative_index_inside by lia. split.
  - rewrite length_take, length_drop. lia.
  - intros i Hi. rewrite !at_lookup.
    destruct (Z.ltb_spec i 0), (Z.ltb_spec (start + i) 0); try lia.
    rewrite lookup_take_lt by lia. rewrite lookup_drop.
    by replace (Z.to_nat start + Z.to_nat i)%nat with (Z.to_nat (start + i)) by lia.
Qed.

(** X11: cutting an array at any integer [k] and concatenating the two
    slices gives the array back; in particular the slice from [0] to the
    length is the whole array. *)
Theorem slice_split_rejoin a (k : Z) :
  NativeArray.concat (NativeArray.slice a 0 k)
    (NativeArray.slice a k (NativeArray.length a)) = a
  /\ NativeArray.slice a 0 (NativeArray.length a) = a.
Proof.
  unfold NativeArray.length, NativeArray.concat.
  set (len := Z.of_nat (length a)).
  assert (Hlen : 0 <= len) by (subst len; lia).
  pose proof (relative_index_range len k Hlen) as Hk.
  rewrite !slice_segment. fold len.
  rewrite !(relative_index_inside len 0) by lia.
  rewrite !(relative_index_inside len len) by lia.
  rewrite Z.sub_0_r. change (Z.to_nat 0) with 0%nat. rewrite drop_0.
  subst len. split.
  - rewrite (take_ge (drop _ _)) by (rewrite length_drop; lia).
    apply take_drop.
  - apply take_ge. lia.
Qed.

(** X12: [slice] takes a concatenation apart again: the first [length a1]
    elements are [a1], the rest is [a2], which is also what the slice from
    index [- length a2] gives. *)
Theorem slice_undoes_concat (a1 a2 : list A) :
  let a := NativeArray.concat a1 a2 in
  NativeArray.slice a 0 (NativeArray.length a1) = a1
  /\ NativeArray.slice a (NativeArray.length a1) (NativeArray.length a) = a2
  /\ (a2 <> [] -> NativeArray.slice a (- NativeArray.length a2) (NativeArray.length a) = a2).
Proof.
  unfold NativeArray.length, NativeArray.concat. cbv zeta.
  assert (Hlen : Z.of_nat (length (a1 ++ a2)) =
                 Z.of_nat (length a1) + Z.of_nat (length a2))
    by (rewrite length_app; lia).
  assert (Htail : take (length a2) (drop (length a1) (a1 ++ a2)) = a2).
  { rewrite drop_app_length. by apply take_ge. }
  split; [| split].
  - rewrite slice_segment. rewrite !relative_index_inside by lia.
    rewrite Z.sub_0_r, Nat2Z.id. simpl drop. apply take_app_length.
  - rewrite slice_segment. rewrite !relative_index_inside by lia.
    rewrite Hlen, Nat2Z.id.
    by replace (Z.to_nat _) with (length a2) by lia.
  - intros Hne. assert (0 < Z.of_nat (length a2)) by (destruct a2; simpl; [done | lia]).
    rewrite slice_segment. rewrite (relative_index_inside _ (Z.of_nat _)) by lia.
    unfold NativeArray.relative_index.
    destruct (Z.ltb_spec (- Z.of_nat (length a2)) 0); [| lia].
    rewrite Hlen.
    replace (Z.max _ 0) with (Z.of_nat (length a1)) by lia.
    rewrite Nat2Z.id.
    by replace (Z.to_nat _) with (length a2) by lia.
Qed.
End SliceFacts.

Lemma slice_in_bounds_witness :
  NativeArray.length (NativeArray.slice [1; 2; 3; 4] 1 3) = 3 - 1
  /\ NativeArray.at_ (NativeArray.slice [1; 2; 3; 4] 1 3) 1 =
       NativeArray.at_ [1; 2; 3; 4] (1 + 1).
Proof.
  destruct (slice_in_bounds [1; 2; 3; 4] 1 3) as [Hlen Hat];
    [lia | vm_compute; discriminate |].
  split; [exact Hlen | apply Hat; lia].
Defined.

(** ** range *)

Section RangeFacts.
Implicit Types (lower upper mid : Z).




End RangeFacts.




(** ** zipWith *)

Section ZipWithFacts.
Context {A B C : Type} `{Inhabited A} `{Inhabited B}.
Implicit Types (f : A -> B -> C).

(** X16: [zipWith] with the arguments swapped is [zipWith] of the swapped
    function; a [map] after it, or a [map] on either argument, can be moved
    into the combining function. *)
Theorem zipWith_composes f (a1 : list A) (a2 : list B) :
  NativeArray.zipWith (fun y x => f x y) a2 a1 = NativeArray.zipWith f a1 a2
  /\ (forall (D : Type) (g : C -> D),
      NativeArray.map g (NativeArray.zipWith f a1 a2) =
        NativeArray.zipWith (fun x y => g (f x y)) a1 a2)
  /\ (forall (S T : Type) `{Inhabited S} `{Inhabited T}
        (g : S -> A) (h : T -> B) (s : list S) (t : list T),
      NativeArray.zipWith f (NativeArray.map g s) (NativeArray.map h t) =
        NativeArray.zipWith (fun x y => f (g x) (h y)) s t).
Proof.
  split; [| split].
  - rewrite !zipWith_zip_with. apply (zip_with_flip f).
  - intros D g. rewrite !zipWith_zip_with. unfold NativeArray.map.
    revert a2. induction a1 as [| x a1 IH]; intros [| y a2]; simpl; try done.
    f_equal. apply IH.
  - intros S T HS HT g h s t. rewrite !zipWith_zip_with. unfold NativeArray.map.
    by rewrite zip_with_fmap_l, zip_with_fmap_r.
Qed.
End ZipWithFacts.

(** X17: zipping the range of the indices of an array with the array pairs
    every element with its index.  (An array has fewer than 2^32 elements;
    2^53 is what the counter of [range] needs.) *)
Theorem zipWith_range_indices {A : Type} `{Inhabited A} (a : list A) :
  NativeArray.length a <= 2 ^ 53 ->
  exists indices : list Z,
    NativeArray.range 0 (NativeArray.length a) = Some indices
    /\ NativeArray.zipWith (fun (i : Z) (x : A) => (i, x)) indices a =
       imap (fun (i : nat) (x : A) => (Z.of_nat i, x)) a.
Proof.
  unfold NativeArray.length. intros Hlength.
  destruct a as [| x0 a0] eqn:Ha.
  { exists []. split; [by rewrite range_descending by (simpl; lia) | done]. }
  rewrite <- Ha in *. assert (Hlt : 0 < Z.of_nat (length a)) by (subst a; simpl; lia).
  clear Ha. eexists. split; [apply range_ascending; lia |].
  rewrite zipWith_zip_with.
  apply list_eq. intros i.
  rewrite lookup_zip_with, list_lookup_imap.
  destruct (a !! i) as [x |] eqn:Hx.
  - pose proof (lookup_lt_Some _ _ _ Hx) as Hi.
    rewrite list_lookup_fmap, lookup_seq_lt by lia. simpl. repeat f_equal; lia.
  - simpl. by destruct ((_ <$> seq _ _) !! i).
Qed.

Lemma zipWith_range_indices_witness :
  exists indices : list Z,
    NativeArray.range 0 (NativeArray.length [7; 8; 9]) = Some indices
    /\ NativeArray.zipWith (fun (i : Z) (x : Z) => (i, x)) indices [7; 8; 9] =
       imap (fun (i : nat) (x : Z) => (Z.of_nat i, x)) [7; 8; 9].
Proof.
  apply (zipWith_range_indices [7; 8; 9]).
  unfold NativeArray.length. simpl length. lia.
Defined.

(** ** findMap *)

Section FindMapFacts.
Context {A B : Type} `{Inhabited A}.
Implicit Types (a : list A) (f : A -> Maybe B).

(** The calls already logged do not influence the loop. *)
Lemma findMap_loop_calls a f :
  forall (n lp : nat) calls,
    n = (length a - lp)%nat ->
    NativeArray.findMap_loop a f lp calls =
      ((NativeArray.findMap_loop a f lp []).1,
       calls ++ (NativeArray.findMap_loop a f lp []).2).
Proof.
  induction n as [| n IH]; intros lp calls Hn.
  - rewrite !findMap_loop_exit by lia. simpl. by rewrite app_nil_r.
  - rewrite (findMap_loop_step a f lp calls), (findMap_loop_step a f lp []) by lia.
    destruct (isJust (f (a !!! lp))); simpl; [done |].
    rewrite (IH (S lp) (calls ++ [lp])), (IH (S lp) [lp]) by lia.
    simpl. by rewrite <- app_assoc.
Qed.

(** The loop on [x :: a] from index [S lp] is the loop on [a] from [lp],
    with every logged index one higher. *)
Lemma findMap_loop_cons (x : A) a f :
  forall (n lp : nat),
    n = (length a - lp)%nat ->
    NativeArray.findMap_loop (x :: a) f (S lp) [] =
      ((NativeArray.findMap_loop a f lp []).1,
       S <$> (NativeArray.findMap_loop a f lp []).2).
Proof.
  induction n as [| n IH]; intros lp Hn.
  - by rewrite !findMap_loop_exit by (simpl; lia).
  - rewrite (findMap_loop_step (x :: a) f (S lp) []) by (simpl; lia).
    rewrite (findMap_loop_step a f lp []) by lia.
    change ((x :: a) !!! S lp) with (a !!! lp).
    destruct (isJust (f (a !!! lp))); simpl; [done |].
    rewrite (findMap_loop_calls (x :: a) f (length (x :: a) - S (S lp)) (S (S lp)))
      by done.
    rewrite (findMap_loop_calls a f (length a - S lp) (S lp) [lp]) by done.
    rewrite (IH (S lp)) by lia. done.
Qed.

(** [findMap] by the head of the array: a success on the head ends the
    search after one call; otherwise the search goes on in the tail. *)
Lemma findMap_cons (x : A) a f :
  NativeArray.findMap (x :: a) f =
    if isJust (f x) then (f x, [0%nat])
    else ((NativeArray.findMap a f).1, 0%nat :: (S <$> (NativeArray.findMap a f).2)).
Proof.
  unfold NativeArray.findMap.
  rewrite findMap_loop_step by (simpl; lia).
  change ((x :: a) !!! 0%nat) with x.
  destruct (isJust (f x)); simpl; [done |].
  rewrite (findMap_loop_calls (x :: a) f (length (x :: a) - 1) 1) by done.
  by rewrite (findMap_loop_cons x a f (length a - 0) 0) by done.
Qed.

Lemma findMap_nil f : NativeArray.findMap [] f = (Nothing, []).
Proof. unfold NativeArray.findMap. by rewrite findMap_loop_exit. Qed.

(** X18: [findMap] answers [Nothing] exactly when the function gives
    [Nothing] on every element; an answer [Just v] is the function's answer
    on some element of the array; and the function is never applied more
    often than the array has elements. *)
Theorem findMap_result_iff a f :
  ((NativeArray.findMap a f).1 = Nothing <-> forall x, x ∈ a -> f x = Nothing)
  /\ (forall v, (NativeArray.findMap a f).1 = Just v -> exists x, x ∈ a /\ f x = Just v)
  /\ (length (NativeArray.findMap a f).2 <= length a)%nat.
Proof.
  induction a as [| x a (IHnone & IHjust & IHcalls)].
  - rewrite findMap_nil. simpl. split; [| split]; [| done | done].
    split; [| done]. intros _ x Hx. by apply elem_of_nil in Hx.
  - rewrite findMap_cons. destruct (f x) as [| v] eqn:Hfx; simpl.
    + split; [| split].
      * rewrite IHnone. split.
        -- intros Hall y [-> | Hy]%elem_of_cons; [done | by apply Hall].
        -- intros Hall y Hy. apply Hall. by apply list_elem_of_further.
      * intros v Hv. destruct (IHjust v Hv) as (y & Hy & Hfy).
        exists y. split; [by apply list_elem_of_further | done].
      * rewrite length_fmap. lia.
    + split; [| split].
      * split; [done |]. intros Hall.
        specialize (Hall x (list_elem_of_here _ _)). congruence.
      * intros v' Hv'. exists x. split; [apply list_elem_of_here | congruence].
      * lia.
Qed.

(** X20: on a concatenation [findMap] searches the first array and goes on
    to the second only when the first gives nothing; when the first array
    holds a success, the second one is not looked at, whatever it holds. *)
Theorem findMap_concat (a1 a2 : list A) f :
  NativeArray.findMap (NativeArray.concat a1 a2) f =
    match (NativeArray.findMap a1 f).1 with
    | Just _ => NativeArray.findMap a1 f
    | Nothing =>
        ((NativeArray.findMap a2 f).1,
         (NativeArray.findMap a1 f).2 ++
           ((fun i => (length a1 + i)%nat) <$> (NativeArray.findMap a2 f).2))
    end.
Proof.
  unfold NativeArray.concat.
  induction a1 as [| x a1 IH].
  - rewrite findMap_nil. simpl. rewrite list_fmap_id.
    by destruct (NativeArray.findMap a2 f).
  - change ((x :: a1) ++ a2) with (x :: (a1 ++ a2)).
    rewrite !findMap_cons, IH.
    destruct (f x) as [| v] eqn:Hfx; simpl; [| done].
    destruct (NativeArray.findMap a1 f) as [[| v] calls]; simpl; [| done].
    by rewrite fmap_app, <- list_fmap_compose.
Qed.

End FindMapFacts.

(** X19: searching with a predicate turned into a mapping function finds
    the first element that [filter] keeps. *)
Theorem findMap_is_first_of_filter {A : Type} `{Inhabited A}
    (predicate : A -> bool) (a : list A) :
  (NativeArray.findMap a (fun x => if predicate x then Just x else Nothing)).1 =
    NativeArray.at_ (NativeArray.filter predicate a) 0.
Proof.
  induction a as [| x a IH]; [by rewrite findMap_nil |].
  rewrite findMap_cons. unfold NativeArray.filter in *. simpl.
  destruct (predicate x); simpl; [done | exact IH].
Qed.

(** X21: searching a mapped array is searching the array with the mapping
    function taken after the map: same answer, same calls. *)
Theorem findMap_map {A B T : Type} `{Inhabited A} `{Inhabited T}
    (g : T -> A) (t : list T) (f : A -> Maybe B) :
  NativeArray.findMap (NativeArray.map g t) f =
    NativeArray.findMap t (fun x => f (g x)).
Proof.
  unfold NativeArray.map.
  induction t as [| x t IH]; [by rewrite !findMap_nil |].
  change (g <$> x :: t) with (g x :: (g <$> t)).
  by rewrite !findMap_cons, IH.
Qed.

(** ** sort *)

Section SortFacts.
Context {A : Type} `{NativeArray.IsUndefined A}.
Implicit Types (compare : A -> A -> Z) (a : list A).

(** X22: under a comparator that is consistent on the elements of [a] that
    are not [undefined], the output of [sort] is in order: [undefined]
    elements stand last, and an element never compares greater than one
    that comes after it. *)
Theorem sort_orders compare a :
  NativeArray.consistent compare (NativeArray.defined a) ->
  forall (p q : nat) x y,
    (p < q)%nat ->
    NativeArray.sort compare a !! p = Some x ->
    NativeArray.sort compare a !! q = Some y ->
    NativeArray.is_undefined y = false ->
    NativeArray.is_undefined x = false /\ compare x y <= 0.
Proof.
  intros Hc p q x y Hpq Hp Hq Hy.
  exact (Array_sort_ordered (fun x y => compare x y) a Hc p q x y Hpq Hp Hq Hy).
Qed.

(** X23: an array that is in order already comes back unchanged: one whose
    [undefined] elements stand last and in which every other element
    compares not greater than its right neighbour, under a comparator that
    is consistent on those elements. *)
Theorem sort_keeps_ordered_input compare a :
  NativeArray.consistent compare (NativeArray.defined a) ->
  (forall (i : nat) x y, a !! i = Some x -> a !! S i = Some y ->
     (NativeArray.is_undefined x = true -> NativeArray.is_undefined y = true)
     /\ (NativeArray.is_undefined y = false -> compare x y <= 0)) ->
  NativeArray.sort compare a = a.
Proof.
  intros Hc Hadj. apply (Array_sort_fixed (fun x y => compare x y) a Hc).
  by apply Sorted_lookup_adjacent.
Qed.

(** X24: under a consistent comparator sorting twice is sorting once. *)
Theorem sort_idempotent compare a :
  NativeArray.consistent compare (NativeArray.defined a) ->
  NativeArray.sort compare (NativeArray.sort compare a) = NativeArray.sort compare a.
Proof.
  intros Hc. unfold NativeArray.sort. apply Array_sort_fixed.
  - apply (consistent_subseteq _ _ _ Hc). intros x.
    by rewrite (defined_Array_sort (fun x y => compare x y) a).
  - by apply Array_sort_in_order.
Qed.
End SortFacts.

(** X25: sorting by a key: ordering the mapped array is mapping the array
    ordered by the comparator taken after the function, when the function
    yields [undefined] for [undefined] and for nothing else, and the
    comparator is consistent on the keys. *)
Theorem sort_map {A T : Type} `{NativeArray.IsUndefined A} `{NativeArray.IsUndefined T}
    (g : T -> A) (compare : A -> A -> Z) (t : list T) :
  (forall u, NativeArray.is_undefined u = NativeArray.is_undefined (g u)) ->
  NativeArray.consistent compare (NativeArray.defined (NativeArray.map g t)) ->
  NativeArray.sort compare (NativeArray.map g t) =
    NativeArray.map g (NativeArray.sort (fun u v => compare (g u) (g v)) t).
Proof.
  intros Hundefined _. unfold NativeArray.sort, NativeArray.map. symmetry.
  by apply (Array_sort_fmap g (fun x y => compare x y) t).
Qed.

Lemma Z_sub_consistent (values : list Z) : NativeArray.consistent Z.sub values.
Proof. unfold NativeArray.consistent. repeat split; intros; lia. Qed.

Lemma sort_orders_witness :
  NativeArray.sort Z.sub [3; 1; 2] !! 0%nat = Some 1
  /\ NativeArray.sort Z.sub [3; 1; 2] !! 2%nat = Some 3
  /\ NativeArray.is_undefined 1 = false /\ 1 - 3 <= 0.
Proof.
  split; [reflexivity |]. split; [reflexivity |].
  apply (sort_orders Z.sub [3; 1; 2] (Z_sub_consistent _) 0%nat 2%nat 1 3);
    [lia | reflexivity | reflexivity | reflexivity].
Defined.

Lemma sort_keeps_ordered_input_witness :
  NativeArray.sort Z.sub [1; 2; 2; 5] = [1; 2; 2; 5].
Proof.
  apply sort_keeps_ordered_input; [apply Z_sub_consistent |].
  intros [| [| [| [| i]]]] x y Hx Hy; simpl in Hx, Hy; try discriminate;
    injection Hx as <-; injection Hy as <-; split; intros; try done; lia.
Defined.

Lemma sort_idempotent_witness :
  NativeArray.sort Z.sub (NativeArray.sort Z.sub [3; 1; 2]) =
    NativeArray.sort Z.sub [3; 1; 2].
Proof. apply sort_idempotent, Z_sub_consistent. Defined.

Lemma sort_map_witness :
  NativeArray.sort Z.sub (NativeArray.map fst [(3, 30); (1, 10); (2, 20)]) =
    NativeArray.map fst
      (NativeArray.sort (fun u v : Z * Z => fst u - fst v) [(3, 30); (1, 10); (2, 20)]).
Proof.
  apply (sort_map fst Z.sub [(3, 30); (1, 10); (2, 20)]);
    [reflexivity | apply Z_sub_consistent].
Defined.

(** ** zipWith on references *)

(** X26: on the store, [zipWith] of two arrays that exist, which may be one
    and the same array, returns a new array that holds what [zipWith]
    computes from their elements: writing the result never changes what is
    read. *)
Theorem heap_zipWith_agrees {V : Type} `{Inhabited V}
    (f : V -> V -> V) (a1 a2 : Heap.ref) (s : Heap.store V) :
  (a1 < length s)%nat -> (a2 < length s)%nat ->
  Heap.zipWith f a1 a2 s =
    (length s, s ++ [NativeArray.zipWith f (s !!! a1) (s !!! a2)]).
Proof. apply heap_zipWith_run. Qed.

Lemma heap_zipWith_agrees_witness :
  Heap.zipWith Z.mul 0%nat 0%nat [[2; 3]] =
    (1%nat, [[2; 3]; NativeArray.zipWith Z.mul [2; 3] [2; 3]]).
Proof. apply (heap_zipWith_agrees Z.mul 0%nat 0%nat [[2; 3]]); simpl; lia. Defined.
